(** * Epsilon-greedy arm allocation

    A shallow embedding of [EpsilonGreedy.allocate_arms] from
    [moe/bandit/epsilon_greedy.py], and the properties of the allocation it
    returns.

    The method works on [numpy.float64] values.  The embedding is written
    once, over an interface [Arith] holding the arithmetic operations the
    method uses, and is run at [Binary64.arith]: IEEE 754 binary64 (Rocq's
    primitive floats), the arithmetic the Python code performs.  What does
    not depend on the arithmetic (keys, errors, effects on the store) is
    proved for any instance; what does (the maximum, signs, order) is proved
    at [Binary64.arith], from the specification of the binary64 operations.
    The instance [Exact.arith] (the rationals) only serves to show what two
    results would be without rounding; no statement about the method rests
    on it. *)

From Stdlib Require Import ZArith QArith Qminmax String List Floats Lia Lqa.
From Stdlib Require Import Permutation Sorted.
From stdpp Require Import base option list gmap strings fin_maps.

Set Default Proof Using "Type".
Set Warnings "-inexact-float".

(** ** Arithmetic interface *)

Class Arith (num : Type) : Type := {
  of_int : Z → num;            (* the float64 nearest to an integer *)
  overflows : Z → bool;        (* the integer is too large for a float64 *)
  fadd : num → num → num;      (* [x + y] *)
  fsub : num → num → num;      (* [x - y] *)
  fdiv : num → num → num;      (* [x / y] *)
  feqb : num → num → bool;     (* [x == y] *)
  fltb : num → num → bool;     (* [x < y] *)
}.

Module Binary64.
(** The binary64 number nearest to a Python integer (ties to even); an
    infinity when the integer rounds beyond the largest binary64 number. *)
Definition float_of_int (z : Z) : float :=
  SF2Prim (binary_normalize prec emax z 0 false).

(** Python converts an integer to a float by correct rounding, and raises
    [OverflowError] when the rounded value is beyond the binary64 range. *)
Definition int_overflows (z : Z) : bool :=
  PrimFloat.eqb (PrimFloat.abs (float_of_int z)) infinity.

#[global] Instance arith : Arith float := {|
  of_int := float_of_int;
  overflows := int_overflows;
  fadd := PrimFloat.add;
  fsub := PrimFloat.sub;
  fdiv := PrimFloat.div;
  feqb := PrimFloat.eqb;
  fltb := PrimFloat.ltb;
|}.
End Binary64.

Module Exact.
(** Not declared as an instance: the method is run in it only where this is
    said. *)
Definition arith : Arith Q := {|
  of_int := inject_Z;
  overflows := λ _, false;
  fadd := Qplus;
  fsub := Qminus;
  fdiv := Qdiv;
  feqb := Qeq_bool;
  fltb := λ x y, negb (Qle_bool y x);
|}.
End Exact.

(** ** Python exceptions and the error monad *)

Inductive exn : Type :=
  | ValueError (msg : string)
  | IndexError (msg : string)
  | KeyError (key : string)
  | ZeroDivisionError (msg : string)
  | OverflowError (msg : string)
  | AttributeError (msg : string).

Definition result (A : Type) : Type := exn + A.

Definition raise {A : Type} (e : exn) : result A := inl e.
Definition ret {A : Type} (a : A) : result A := inr a.
Definition bind {A B : Type} (m : result A) (k : A → result B) : result B :=
  match m with
  | inl e => inl e
  | inr a => k a
  end.

Notation "'let!' x ':=' m 'in' k" := (bind m (λ x, k))
  (at level 10, x name, m at level 100, k at level 200).

Fixpoint foldM {A B : Type} (f : A → B → result A) (a : A) (l : list B)
    : result A :=
  match l with
  | [] => ret a
  | x :: l' => let! a' := f a x in foldM f a' l'
  end.

Fixpoint mapM {A B : Type} (f : A → result B) (l : list A) : result (list B) :=
  match l with
  | [] => ret []
  | x :: l' => let! y := f x in let! ys := mapM f l' in ret (y :: ys)
  end.

(** ** Data model *)

(** Modelled from the spec: the class [SampleArm] of
    [moe.bandit.data_containers] is not part of the sources; the spec's
    ArmStatistics gives it the three counts read by [allocate_arms].  They are
    Python integers; the method does not validate them. *)
Record SampleArm : Type := {
  win : Z;
  loss : Z;
  total : Z;
}.

(** Modelled from the spec: [HistoricalData] is not part of the sources; the
    spec's HistoricalInfo is a mapping from arm name to statistics. *)
Record HistoricalData : Type := {
  arms_sampled : gmap string SampleArm;
}.

(** Modelled from the spec: the property [num_arms] of [HistoricalData] is
    the number of distinct keys of [arms_sampled]. *)
Definition num_arms (historical_info : HistoricalData) : nat :=
  size (arms_sampled historical_info).

(** The fields of an [EpsilonGreedy] object that [allocate_arms] reads. *)
Record EpsilonGreedy (num : Type) : Type := {
  _historical_info : HistoricalData;
  _epsilon : num;
}.
Arguments _historical_info {num} _.
Arguments _epsilon {num} _.

(** ** The method *)

Section AllocateArms.
Context {num : Type} {arith : Arith num}.

(** The conversion of a Python integer to a float64, as [numpy.float64(n)]
    and the division of a float64 by an integer perform it. *)
Definition float64 (n : Z) : result num :=
  if overflows n
  then raise (OverflowError "long int too large to convert to float")
  else ret (of_int n).

(** [numpy.float64(win - loss) / total if total > 0 else 0] *)
Definition avg_payoff (sampled_arm : SampleArm) : result num :=
  if (0 <? total sampled_arm)%Z
  then
    let! difference := float64 (win sampled_arm - loss sampled_arm) in
    let! total := float64 (total sampled_arm) in
    ret (fdiv difference total)
  else ret (of_int 0).

(** The body of the loop of lines 71-73, for one item of
    [arms_sampled.iteritems()]. *)
Definition payoff_name (item : string * SampleArm) : result (num * string) :=
  let! avg_payoff := avg_payoff item.2 in
  ret (avg_payoff, item.1).

(** The list built by the loop of lines 71-73. *)
Definition payoff_name_list (arms : gmap string SampleArm)
    : result (list (num * string)) :=
  mapM payoff_name (map_to_list arms).

(** Python's [<] on [(avg_payoff, arm_name)] tuples: the first components
    that are not [==] decide. *)
Definition tuple_lt (x y : num * string) : bool :=
  if feqb x.1 y.1 then String.ltb x.2 y.2 else fltb x.1 y.1.

(** [list.sort]: a stable ascending sort that only asks [<]. *)
Fixpoint insort (x : num * string) (l : list (num * string))
    : list (num * string) :=
  match l with
  | [] => [x]
  | y :: l' => if tuple_lt x y then x :: y :: l' else y :: insort x l'
  end.

Definition sort (l : list (num * string)) : list (num * string) :=
  foldl (λ acc x, insort x acc) [] l.

(** [list.sort(reverse=True)]: reverse, sort ascending, reverse. *)
Definition sort_reverse (l : list (num * string)) : list (num * string) :=
  rev (sort (rev l)).

(** [_, names = map(list, zip( *pairs))]: unpacking fails on no pairs. *)
Definition unzip_names (pairs : list (num * string)) : result (list string) :=
  match pairs with
  | [] => raise (ValueError "need more than 0 values to unpack")
  | _ => ret (pairs.*2)
  end.

(** [x / n] for [n] the length of a list or of a dictionary, an integer that
    is always inside the float64 range. *)
Definition div_count (x : num) (n : nat) : result num :=
  match n with
  | O => raise (ZeroDivisionError "float division by zero")
  | S _ => ret (fdiv x (of_int (Z.of_nat n)))
  end.

(** [arms_to_allocations[arm_name] = epsilon_allocation] *)
Definition set_allocation (epsilon_allocation : num)
    (arms_to_allocations : gmap string num) (arm_name : string)
    : gmap string num :=
  <[arm_name := epsilon_allocation]> arms_to_allocations.

(** [arms_to_allocations[winning_arm_name] += winning_arm_allocation] *)
Definition add_allocation (winning_arm_allocation : num)
    (arms_to_allocations : gmap string num) (winning_arm_name : string)
    : result (gmap string num) :=
  match arms_to_allocations !! winning_arm_name with
  | None => raise (KeyError winning_arm_name)
  | Some v =>
      ret (<[winning_arm_name := fadd v winning_arm_allocation]>
             arms_to_allocations)
  end.

(** Lines 74-80, on the list built by the loop: the names of the tuples
    whose payoff [==] the first payoff of the list sorted in decreasing
    order. *)
Definition winning_names (avg_payoff_arm_name_list : list (num * string))
    : result (list string) :=
  let avg_payoff_arm_name_list := sort_reverse avg_payoff_arm_name_list in
  match avg_payoff_arm_name_list with
  | [] => raise (IndexError "list index out of range")
  | (best_payoff, _) :: _ =>
      let winning_arm_payoff_name_list :=
        List.filter (λ avg_payoff_arm_name,
                       feqb avg_payoff_arm_name.1 best_payoff)
                    avg_payoff_arm_name_list in
      unzip_names winning_arm_payoff_name_list
  end.

(** Lines 70-80: the winner list of [arms_sampled]. *)
Definition winning_arm_names (arms_sampled : gmap string SampleArm)
    : result (list string) :=
  let! avg_payoff_arm_name_list := payoff_name_list arms_sampled in
  winning_names avg_payoff_arm_name_list.

Definition allocate_arms (self : EpsilonGreedy num)
    : result (gmap string num) :=
  let arms_sampled := arms_sampled (_historical_info self) in
  let num_arms := num_arms (_historical_info self) in
  if decide (arms_sampled = ∅)
  then raise (ValueError "sample_arms are empty!")
  else
    let! winning_arm_name_list := winning_arm_names arms_sampled in
    let num_winning_arms := length winning_arm_name_list in
    let! epsilon_allocation := div_count (_epsilon self) num_arms in
    let arms_to_allocations :=
      foldl (set_allocation epsilon_allocation) ∅
            (map_to_list arms_sampled).*1 in
    let! winning_arm_allocation :=
      div_count (fsub (of_int 1) (_epsilon self)) num_winning_arms in
    foldM (add_allocation winning_arm_allocation)
          arms_to_allocations winning_arm_name_list.

(** The allocation of an arm of payoff [payoff] in closed form: the baseline
    share, plus the winners' share when the payoff [==] the best payoff. *)
Definition allocation (epsilon : num) (num_arms num_winning_arms : nat)
    (best_payoff payoff : num) : num :=
  let epsilon_allocation := fdiv epsilon (of_int (Z.of_nat num_arms)) in
  let winning_arm_allocation :=
    fdiv (fsub (of_int 1) epsilon) (of_int (Z.of_nat num_winning_arms)) in
  if feqb payoff best_payoff
  then fadd epsilon_allocation winning_arm_allocation
  else epsilon_allocation.

(** Whether the payoff of an arm is computed and [==] [payoff]. *)
Definition has_payoff (payoff : num) (sampled_arm : SampleArm) : bool :=
  match avg_payoff sampled_arm with
  | inr p => feqb p payoff
  | inl _ => false
  end.

(** The arms of [arms] whose payoff [==] [payoff], in iteration order. *)
Definition arms_with_payoff (payoff : num) (arms : gmap string SampleArm)
    : list (string * SampleArm) :=
  List.filter (λ item, has_payoff payoff item.2) (map_to_list arms).

(** Whether the payoffs of two arms are computed and compare equal. *)
Definition payoffs_eqb (sampled_arm sampled_arm' : SampleArm) : bool :=
  match avg_payoff sampled_arm, avg_payoff sampled_arm' with
  | inr p, inr p' => feqb p p'
  | _, _ => false
  end.

(** Whether the average payoffs of all arms compare equal. *)
Definition all_tied (arms : gmap string SampleArm) : bool :=
  forallb (λ item,
             forallb (λ item', payoffs_eqb item.2 item'.2) (map_to_list arms))
          (map_to_list arms).

(** Whether the counts of an arm are inside the float64 range, where line 72
    converts them. *)
Definition arm_in_range (sampled_arm : SampleArm) : bool :=
  negb (0 <? total sampled_arm)%Z
  || negb (overflows (win sampled_arm - loss sampled_arm))
     && negb (overflows (total sampled_arm)).

Definition in_range (arms : gmap string SampleArm) : bool :=
  forallb (λ item, arm_in_range item.2) (map_to_list arms).
End AllocateArms.

(** ** The method on a store of objects

    The same method with its objects in a store: [self], its
    [HistoricalData], and the list and the dictionary the method creates and
    updates in place.  This is the model in which the effects of a call are
    stated. *)

Definition loc : Type := positive.

Section Store.
Context {num : Type} {arith : Arith num}.

Inductive object : Type :=
  | EpsilonGreedyObject (historical_info : loc) (epsilon : num)
  | HistoricalDataObject (arms : gmap string SampleArm)
  | ListObject (items : list (num * string))
  | DictObject (items : gmap string num).

(** A computation reads and updates the store and returns or raises. *)
Definition prog (A : Type) : Type :=
  gmap loc object → result A * gmap loc object.

Definition sret {A : Type} (a : A) : prog A := λ h, (inr a, h).
Definition sraise {A : Type} (e : exn) : prog A := λ h, (inl e, h).
Definition sbind {A B : Type} (c : prog A) (k : A → prog B) : prog B :=
  λ h, match c h with
       | (inl e, h') => (inl e, h')
       | (inr a, h') => k a h'
       end.
Definition lift {A : Type} (r : result A) : prog A := λ h, (r, h).

Definition alloc (o : object) : prog loc :=
  λ h, let l := fresh (dom h) in (inr l, <[l := o]> h).
Definition load (l : loc) : prog object :=
  λ h, match h !! l with
       | Some o => (inr o, h)
       | None => (inl (AttributeError "no such object"), h)
       end.
Definition store (l : loc) (o : object) : prog unit :=
  λ h, (inr tt, <[l := o]> h).

Fixpoint for_each {B : Type} (xs : list B) (body : B → prog unit)
    : prog unit :=
  match xs with
  | [] => sret tt
  | x :: xs' => sbind (body x) (λ _, for_each xs' body)
  end.

(** [l.append(x)] *)
Definition list_append (l : loc) (x : num * string) : prog unit :=
  sbind (load l) (λ o,
    match o with
    | ListObject items => store l (ListObject (items ++ [x]))
    | _ => sraise (AttributeError "append")
    end).

(** [l.sort(reverse=True)], in place *)
Definition list_sort_reverse (l : loc) : prog unit :=
  sbind (load l) (λ o,
    match o with
    | ListObject items => store l (ListObject (sort_reverse items))
    | _ => sraise (AttributeError "sort")
    end).

(** The items of a list object, read. *)
Definition list_items (l : loc) : prog (list (num * string)) :=
  sbind (load l) (λ o,
    match o with
    | ListObject items => sret items
    | _ => sraise (AttributeError "__getitem__")
    end).

(** [d[k] = v] *)
Definition dict_setitem (d : loc) (k : string) (v : num) : prog unit :=
  sbind (load d) (λ o,
    match o with
    | DictObject items => store d (DictObject (set_allocation v items k))
    | _ => sraise (AttributeError "__setitem__")
    end).

(** [d[k] += w] *)
Definition dict_iadd (d : loc) (w : num) (k : string) : prog unit :=
  sbind (load d) (λ o,
    match o with
    | DictObject items =>
        match add_allocation w items k with
        | inl e => sraise e
        | inr items' => store d (DictObject items')
        end
    | _ => sraise (AttributeError "__getitem__")
    end).

(** Lines 71-73 for one item: compute the payoff, append the tuple. *)
Definition append_payoff (l : loc) (item : string * SampleArm) : prog unit :=
  sbind (lift (payoff_name item)) (list_append l).

Definition allocate_arms_st (self : loc) : prog loc :=
  sbind (load self) (λ self_object,
  match self_object with
  | EpsilonGreedyObject historical_info epsilon =>
    sbind (load historical_info) (λ historical_info_object,
    match historical_info_object with
    | HistoricalDataObject arms_sampled =>
      let num_arms := size arms_sampled in
      if decide (arms_sampled = ∅)
      then sraise (ValueError "sample_arms are empty!")
      else
        sbind (alloc (ListObject [])) (λ avg_payoff_arm_name_list,
        sbind (for_each (map_to_list arms_sampled)
                 (append_payoff avg_payoff_arm_name_list)) (λ _,
        sbind (list_sort_reverse avg_payoff_arm_name_list) (λ _,
        sbind (list_items avg_payoff_arm_name_list) (λ sorted,
        match sorted with
        | [] => sraise (IndexError "list index out of range")
        | (best_payoff, _) :: _ =>
          let winning_arm_payoff_name_list :=
            List.filter (λ avg_payoff_arm_name,
                           feqb avg_payoff_arm_name.1 best_payoff) sorted in
          sbind (lift (unzip_names winning_arm_payoff_name_list))
            (λ winning_arm_name_list,
          let num_winning_arms := length winning_arm_name_list in
          sbind (lift (div_count epsilon num_arms)) (λ epsilon_allocation,
          sbind (alloc (DictObject ∅)) (λ arms_to_allocations,
          sbind (for_each (map_to_list arms_sampled).*1
                   (λ arm_name, dict_setitem arms_to_allocations arm_name
                                  epsilon_allocation)) (λ _,
          sbind (lift (div_count (fsub (of_int 1) epsilon) num_winning_arms))
            (λ winning_arm_allocation,
          sbind (for_each winning_arm_name_list
                   (dict_iadd arms_to_allocations winning_arm_allocation))
            (λ _,
          sret arms_to_allocations))))))
        end))))
    | _ => sraise (AttributeError "arms_sampled")
    end)
  | _ => sraise (AttributeError "_historical_info")
  end).

(** The store [h] keeps every object of [h0]. *)
Definition keeps_store (h0 h : gmap loc object) : Prop :=
  ∀ l o, h0 !! l = Some o → h !! l = Some o.

(** Started from a store that keeps [h0], the computation ends in a store
    that keeps [h0], and what it returns satisfies [Q]. *)
Definition frames {A : Type} (h0 : gmap loc object) (c : prog A)
    (Q : A → Prop) : Prop :=
  ∀ h, keeps_store h0 h →
       keeps_store h0 (c h).2 ∧ ∀ a, (c h).1 = inr a → Q a.
End Store.

Arguments object : clear implicits.
Arguments prog : clear implicits.

(** The error of line 69, which the spec calls [EmptyInputError]. *)
Definition EmptyInputError : exn := ValueError "sample_arms are empty!".

(** ** Binary64 values, as the specification of the operations sees them

    [Prim2SF] gives the sign, the mantissa and the exponent of a binary64
    number.  The comparisons order these numbers by a key. *)

Definition sf_nan (x : spec_float) : bool :=
  match x with S754_nan => true | _ => false end.

Definition sf_key (x : spec_float) : Z * Z * Z :=
  match x with
  | S754_nan | S754_zero _ => (0, 0, 0)
  | S754_infinity s => (if s then -2 else 2, 0, 0)
  | S754_finite s m e => if s then (-1, - e, - Z.pos m) else (1, e, Z.pos m)
  end%Z.

Definition key_le (k1 k2 : Z * Z * Z) : Prop :=
  (k1.1.1 < k2.1.1
   ∨ k1.1.1 = k2.1.1
     ∧ (k1.1.2 < k2.1.2 ∨ k1.1.2 = k2.1.2 ∧ k1.2 ≤ k2.2))%Z.

Definition key_lt (k1 k2 : Z * Z * Z) : Prop :=
  (k1.1.1 < k2.1.1
   ∨ k1.1.1 = k2.1.1
     ∧ (k1.1.2 < k2.1.2 ∨ k1.1.2 = k2.1.2 ∧ k1.2 < k2.2))%Z.


(** Not a NaN and not negative: a zero of either sign, a positive number
    or [+infinity]. *)
Definition sf_nonneg (x : spec_float) : bool :=
  match x with
  | S754_zero _ | S754_infinity false | S754_finite false _ _ => true
  | _ => false
  end.

(** A positive number or [+infinity]. *)
Definition sf_pos (x : spec_float) : bool :=
  match x with
  | S754_infinity false | S754_finite false _ _ => true
  | _ => false
  end.

(** A zero or a number: neither an infinity nor a NaN. *)
Definition sf_fin (x : spec_float) : bool :=
  match x with
  | S754_zero _ | S754_finite _ _ _ => true
  | _ => false
  end.

(** ** The average payoff as the spec words it *)

(** Modelled from the spec: "compute its average payoff:
    (wins - losses) / total if total > 0, else define average payoff
    as 0", on the rationals. *)
Definition exact_avg_payoff (sampled_arm : SampleArm) : Q :=
  if (0 <? total sampled_arm)%Z
  then inject_Z (win sampled_arm - loss sampled_arm)
       / inject_Z (total sampled_arm)
  else 0.

(** ** Running the method *)

Definition arm (w l t : Z) : SampleArm := {| win := w; loss := l; total := t |}.

Definition three_arms : HistoricalData :=
  {| arms_sampled :=
       <["arm1" := arm 5 0 10]>
         (<["arm2" := arm 5 0 10]> (<["arm3" := arm 0 0 0]> ∅)) |}.

Definition tie_example : EpsilonGreedy float :=
  {| _historical_info := three_arms; _epsilon := 0.12%float |}.

Definition exact_example : EpsilonGreedy Q :=
  {| _historical_info := three_arms; _epsilon := 0.12%Q |}.

Definition no_arms_example : EpsilonGreedy float :=
  {| _historical_info := {| arms_sampled := ∅ |}; _epsilon := 0.12%float |}.

(** The mapping that [tie_example] returns. *)
Definition tie_allocation : gmap string float :=
  list_to_map [("arm1", 0.48%float); ("arm2", 0.48%float);
               ("arm3", 0.04%float)].



(** Two arms whose average payoffs differ, by less than float64 can tell. *)
Definition near_tie_arms : HistoricalData :=
  {| arms_sampled :=
       <["arm1" := arm 94911150 0 94911151]>
         (<["arm2" := arm 94911151 0 94911152]> ∅) |}.

Definition near_tie_example : EpsilonGreedy float :=
  {| _historical_info := near_tie_arms; _epsilon := 0.1%float |}.

(** Two arms with counts beyond 2^53, where the conversion of line 72
    rounds. *)
Definition large_count_arms : HistoricalData :=
  {| arms_sampled :=
       <["arm1" := arm (2 ^ 53 + 1) 0 (2 ^ 53 + 2)]>
         (<["arm2" := arm (2 ^ 53) 0 (2 ^ 53 + 1)]> ∅) |}.

Definition large_count_example : EpsilonGreedy float :=
  {| _historical_info := large_count_arms; _epsilon := 0.1%float |}.



(** A store with [tie_example] as object 1 and its [HistoricalData] as
    object 2. *)
Definition example_store : gmap loc (object float) :=
  <[1%positive := EpsilonGreedyObject 2%positive 0.12%float]>
    (<[2%positive := HistoricalDataObject (arms_sampled three_arms)]> ∅).

(** [|x - y| <= tol] on binary64 values. *)
Definition within (tol x y : float) : bool :=
  PrimFloat.leb (PrimFloat.abs (PrimFloat.sub x y)) tol.

(** * Properties *)

(** ** Facts that hold in any arithmetic *)

Section Structure.
Context {num : Type} {arith : Arith num}.

Lemma mapM_inr {A B : Type} (f : A → result B) (l : list A) (ys : list B) :
  mapM f l = inr ys → Forall2 (λ x y, f x = inr y) l ys.
Proof.
  revert ys. induction l as [|x l IH]; intros ys; cbn [mapM].
  - intros [= <-]. constructor.
  - destruct (f x) as [e|y] eqn:Hx; [done|]. cbn [bind].
    destruct (mapM f l) as [e|ys'] eqn:Hl; [done|]. cbn [bind ret].
    intros [= <-]. constructor; [done|]. by apply IH.
Qed.

Lemma mapM_inl {A B : Type} (f : A → result B) (l : list A) e :
  mapM f l = inl e → ∃ x, x ∈ l ∧ f x = inl e.
Proof.
  induction l as [|x l IH]; cbn [mapM]; [done|].
  destruct (f x) as [e'|y] eqn:Hx; cbn [bind].
  - intros [= ->]. exists x. split; [by left|done].
  - destruct (mapM f l) as [e'|ys'] eqn:Hl; [|done]. cbn [bind].
    intros [= ->]. destruct IH as (x' & Hin & Hx'); [done|].
    exists x'. split; [by right|done].
Qed.

Lemma mapM_total {A B : Type} (f : A → result B) (l : list A) :
  (∀ x, x ∈ l → ∃ y, f x = inr y) → ∃ ys, mapM f l = inr ys.
Proof.
  induction l as [|x l IH]; intros Hall; cbn [mapM]; [by eexists|].
  destruct (Hall x) as [y ->]; [by left|].
  destruct IH as [ys ->]; [|by eexists].
  intros x' Hin. apply Hall. by right.
Qed.

Lemma insort_perm (x : num * string) l : insort x l ≡ₚ x :: l.
Proof.
  induction l as [|y l IH]; simpl; [done|].
  destruct (tuple_lt x y); [done|].
  rewrite IH. apply Permutation_swap.
Qed.

Lemma sort_perm (l : list (num * string)) : sort l ≡ₚ l.
Proof.
  unfold sort.
  enough (∀ acc, foldl (λ acc x, insort x acc) acc l ≡ₚ l ++ acc) as Hgen
    by (rewrite Hgen; by rewrite app_nil_r).
  induction l as [|x l IH]; intros acc; simpl; [done|].
  rewrite IH, insort_perm. by rewrite Permutation_middle.
Qed.

Lemma sort_reverse_perm (l : list (num * string)) : sort_reverse l ≡ₚ l.
Proof.
  unfold sort_reverse.
  rewrite <- Permutation_rev, sort_perm. by rewrite <- Permutation_rev.
Qed.

(** *** The list built by the loop of lines 71-73 *)

Lemma payoff_name_inr (item : string * SampleArm) (x : num * string) :
  payoff_name item = inr x ↔ avg_payoff item.2 = inr x.1 ∧ x.2 = item.1.
Proof.
  unfold payoff_name. destruct (avg_payoff item.2) as [e|p]; cbn [bind ret].
  - split; [done|]. by intros [? _].
  - destruct x as [p' k]. cbn [fst snd]. split.
    + by intros [= -> ->].
    + by intros [[= ->] ->].
Qed.

Lemma payoff_name_list_inr (arms : gmap string SampleArm) l :
  payoff_name_list arms = inr l →
  Forall2 (λ item x, avg_payoff item.2 = inr x.1 ∧ x.2 = item.1)
          (map_to_list arms) l.
Proof.
  intros Hl%mapM_inr. eapply Forall2_impl; [exact Hl|].
  intros item x. by rewrite payoff_name_inr.
Qed.

Lemma payoff_name_list_names (arms : gmap string SampleArm) l :
  payoff_name_list arms = inr l → l.*2 = (map_to_list arms).*1.
Proof.
  intros Hl%payoff_name_list_inr.
  induction Hl as [|item x items l [_ Hk] _ IH]; [done|].
  cbn [fmap list_fmap]. by rewrite Hk, IH.
Qed.

Lemma elem_of_payoff_name_list (arms : gmap string SampleArm) l p name :
  payoff_name_list arms = inr l →
  (p, name) ∈ l ↔ ∃ a, arms !! name = Some a ∧ avg_payoff a = inr p.
Proof.
  intros Hl%payoff_name_list_inr.
  transitivity (∃ item, item ∈ map_to_list arms
                        ∧ avg_payoff item.2 = inr p ∧ name = item.1).
  - induction Hl as [|item x items l [Hp Hk] _ IH].
    + split; [by intros ?%elem_of_nil|by intros (? & ?%elem_of_nil & _)].
    + rewrite elem_of_cons, IH. split.
      * intros [<-|(item' & Hin & Hitem)].
        -- exists item. split; [by left|done].
        -- exists item'. split; [by right|done].
      * intros (item' & [->|Hin]%elem_of_cons & Hp' & Hk').
        -- left. destruct x as [p' k']. cbn [fst snd] in *. congruence.
        -- right. by exists item'.
  - split.
    + intros ([k a] & Hin%elem_of_map_to_list & Hp & ->). by exists a.
    + intros (a & Ha & Hp). exists (name, a).
      split; [by apply elem_of_map_to_list|done].
Qed.

Lemma payoff_name_list_length (arms : gmap string SampleArm) l :
  payoff_name_list arms = inr l → length l = size arms.
Proof.
  intros Hl%payoff_name_list_inr%Forall2_length.
  by rewrite <- Hl, length_map_to_list.
Qed.

Lemma payoff_name_list_nil (arms : gmap string SampleArm) :
  payoff_name_list arms = inr [] → arms = ∅.
Proof.
  intros Hl%payoff_name_list_length. symmetry in Hl.
  by apply map_size_empty_iff in Hl.
Qed.

(** The tuples that pass the filter of line 78 are those of the arms whose
    payoff [==] the best payoff. *)
Lemma payoff_name_list_filter (arms : gmap string SampleArm) l best :
  payoff_name_list arms = inr l →
  length (List.filter (λ x, feqb x.1 best) l)
  = length (arms_with_payoff best arms).
Proof.
  intros Hl%payoff_name_list_inr. unfold arms_with_payoff.
  induction Hl as [|item x items l [Hp _] _ IH]; [done|].
  cbn [List.filter]. unfold has_payoff at 1. rewrite Hp.
  destruct (feqb x.1 best); cbn [length]; by rewrite IH.
Qed.

(** The loop of lines 71-73 ends exactly when every payoff is computed. *)
Lemma payoff_name_list_total (arms : gmap string SampleArm) :
  (∀ name a, arms !! name = Some a → ∃ p, avg_payoff a = inr p) →
  ∃ l, payoff_name_list arms = inr l.
Proof.
  intros Hall. apply mapM_total.
  intros [name a] Hin%elem_of_map_to_list.
  destruct (Hall name a Hin) as [p Hp]. exists (p, name).
  by apply payoff_name_inr.
Qed.

Lemma payoff_name_list_inl (arms : gmap string SampleArm) e :
  payoff_name_list arms = inl e →
  ∃ name a, arms !! name = Some a ∧ avg_payoff a = inl e.
Proof.
  intros ([name a] & Hin%elem_of_map_to_list & Herr)%mapM_inl.
  exists name, a. split; [done|]. unfold payoff_name in Herr.
  cbn [snd] in Herr.
  destruct (avg_payoff a); cbn [bind ret] in Herr; [by injection Herr as ->|done].
Qed.

(** *** Counts inside the float64 range *)

Lemma float64_inr (n : Z) (x : num) :
  float64 n = inr x ↔ overflows n = false ∧ x = of_int n.
Proof.
  unfold float64. destruct (overflows n); cbn [raise ret].
  - split; [done|]. by intros [? _].
  - split; [by intros [= <-]|]. by intros [_ ->].
Qed.

Lemma float64_inl (n : Z) e :
  float64 (num := num) n = inl e →
  overflows n = true
  ∧ e = OverflowError "long int too large to convert to float".
Proof. unfold float64. destruct (overflows n); [by intros [= <-]|done]. Qed.

(** The payoff of an arm is computed exactly when its counts are in range,
    and then it is the quotient of line 72. *)
Lemma avg_payoff_inr (a : SampleArm) (p : num) :
  avg_payoff a = inr p
  ↔ arm_in_range a = true
    ∧ p = if (0 <? total a)%Z
          then fdiv (of_int (win a - loss a)) (of_int (total a))
          else of_int 0.
Proof.
  unfold avg_payoff, arm_in_range, float64.
  destruct (0 <? total a)%Z; cbn [negb orb]; [|split; [by intros [= <-]|by intros [_ ->]]].
  destruct (overflows (win a - loss a)); cbn [bind raise ret negb andb];
    [split; [done|by intros [? _]]|].
  destruct (overflows (total a)); cbn [bind raise ret negb andb];
    [split; [done|by intros [? _]]|].
  split; [by intros [= <-]|by intros [_ ->]].
Qed.

Lemma avg_payoff_inl (a : SampleArm) e :
  avg_payoff (num := num) a = inl e →
  arm_in_range a = false
  ∧ e = OverflowError "long int too large to convert to float".
Proof.
  unfold avg_payoff, arm_in_range, float64.
  destruct (0 <? total a)%Z; cbn [negb orb]; [|done].
  destruct (overflows (win a - loss a)); cbn [bind raise ret negb andb];
    [by intros [= <-]|].
  destruct (overflows (total a)); cbn [bind raise ret negb andb];
    [by intros [= <-]|done].
Qed.

Lemma in_range_lookup (arms : gmap string SampleArm) :
  in_range arms = true
  ↔ ∀ name a, arms !! name = Some a → arm_in_range a = true.
Proof.
  unfold in_range. rewrite forallb_forall. split.
  - intros Hall name a Ha. apply (Hall (name, a)).
    by apply list_elem_of_In, elem_of_map_to_list.
  - intros Hall [name a] Hin%list_elem_of_In%elem_of_map_to_list.
    by apply (Hall name).
Qed.

Lemma in_range_payoff_name_list (arms : gmap string SampleArm) :
  in_range arms = true → ∃ l, payoff_name_list arms = inr l.
Proof.
  rewrite in_range_lookup. intros Hall. apply payoff_name_list_total.
  intros name a Ha. eexists. apply avg_payoff_inr.
  split; [by eapply Hall|done].
Qed.

Lemma payoff_name_list_in_range (arms : gmap string SampleArm) l :
  payoff_name_list arms = inr l → in_range arms = true.
Proof.
  intros Hl. apply in_range_lookup. intros name a Ha.
  destruct (avg_payoff (num := num) a) as [e|p] eqn:Hp.
  - exfalso. pose proof (payoff_name_list_inr _ _ Hl) as Hall.
    apply elem_of_map_to_list in Ha.
    apply list_elem_of_lookup in Ha as [i Hi].
    destruct (Forall2_lookup_l _ _ _ _ _ Hall Hi) as (x & _ & Hx & _).
    cbn [snd] in Hx. congruence.
  - by apply avg_payoff_inr in Hp as [? _].
Qed.

(** *** The two loops over the dictionary *)

(** The first loop gives every key the baseline allocation. *)
Lemma set_allocation_lookup (e : num) (keys : list string) m0 k :
  foldl (set_allocation e) m0 keys !! k
  = if decide (k ∈ keys) then Some e else m0 !! k.
Proof.
  revert m0. induction keys as [|k' keys IH]; intros m0.
  - case_decide as Hin; [by apply elem_of_nil in Hin|done].
  - cbn [foldl]. rewrite IH. unfold set_allocation.
    destruct (decide (k ∈ keys)) as [Hin|Hin].
    + by rewrite decide_True by set_solver.
    + destruct (decide (k = k')) as [->|Hne].
      * rewrite lookup_insert_eq. by rewrite decide_True by set_solver.
      * rewrite lookup_insert_ne by done. by rewrite decide_False by (by apply not_elem_of_cons).
Qed.

(** The second loop adds the winners' share once to each listed key. *)
Lemma add_allocation_fold (w : num) (ws : list string) (m : gmap string num) :
  NoDup ws →
  (∀ k, k ∈ ws → is_Some (m !! k)) →
  ∃ m', foldM (add_allocation w) m ws = inr m'
        ∧ ∀ k, m' !! k = if decide (k ∈ ws)
                         then (λ v, fadd v w) <$> m !! k
                         else m !! k.
Proof.
  revert m. induction ws as [|k' ws IH]; intros m Hnd Hdom.
  - exists m. split; [done|]. intros k.
    case_decide as Hin; [by apply elem_of_nil in Hin|done].
  - apply NoDup_cons in Hnd as [Hk' Hnd].
    destruct (Hdom k') as [v Hv]; [set_solver|].
    cbn [foldM]. unfold add_allocation at 1. rewrite Hv. cbn [ret bind].
    destruct (IH (<[k' := fadd v w]> m) Hnd) as (m' & Hrun & Hm').
    { intros k Hk. destruct (decide (k = k')) as [->|Hne].
      - rewrite lookup_insert_eq. by eexists.
      - rewrite lookup_insert_ne by done. apply Hdom. set_solver. }
    exists m'. split; [done|]. intros k. rewrite Hm'.
    destruct (decide (k = k')) as [->|Hne].
    + rewrite decide_False by done. rewrite lookup_insert_eq.
      rewrite decide_True by set_solver. by rewrite Hv.
    + rewrite lookup_insert_ne by done.
      destruct (decide (k ∈ ws)).
      * by rewrite decide_True by set_solver.
      * by rewrite decide_False by (by apply not_elem_of_cons).
Qed.

Lemma filter_perm {A : Type} (f : A → bool) (l l' : list A) :
  l ≡ₚ l' → List.filter f l ≡ₚ List.filter f l'.
Proof.
  induction 1 as [|x l l' _ IH|x y l|l l' l'' _ IH1 _ IH2]; simpl.
  - done.
  - destruct (f x); by rewrite IH.
  - destruct (f x), (f y); try done. apply Permutation_swap.
  - by rewrite IH1.
Qed.

Lemma elem_of_filter_bool {A : Type} (f : A → bool) (l : list A) x :
  x ∈ List.filter f l ↔ x ∈ l ∧ f x = true.
Proof. rewrite !list_elem_of_In. apply filter_In. Qed.

Lemma NoDup_filter_snd {A B : Type} (f : A * B → bool) (l : list (A * B)) :
  NoDup (l.*2) → NoDup ((List.filter f l).*2).
Proof.
  induction l as [|x l IH]; simpl; [done|].
  intros [Hx Hl]%NoDup_cons. destruct (f x); simpl; [|by apply IH].
  apply NoDup_cons. split; [|by apply IH].
  intros ([a b] & Hb & [Hin _]%elem_of_filter_bool)%list_elem_of_fmap.
  apply Hx. apply list_elem_of_fmap. by exists (a, b).
Qed.

Lemma elem_of_keys {V : Type} (m : gmap string V) k :
  k ∈ (map_to_list m).*1 ↔ is_Some (m !! k).
Proof.
  rewrite list_elem_of_fmap. split.
  - intros ([k' v] & -> & Hin). exists v. by apply elem_of_map_to_list.
  - intros [v Hv]. exists (k, v). split; [done|]. by apply elem_of_map_to_list.
Qed.

Lemma div_count_pos (x : num) (n : nat) :
  1 ≤ n → div_count x n = inr (fdiv x (of_int (Z.of_nat n))).
Proof. destruct n; [lia|done]. Qed.

Lemma size_pos (arms : gmap string SampleArm) : arms ≠ ∅ → 1 ≤ size arms.
Proof.
  intros Hne. destruct (size arms) eqn:Hsz; [|lia].
  by apply map_size_empty_iff in Hsz.
Qed.

(** *** The winner list *)

(** What lines 74-80 compute, given the list sorted on line 74: the names of
    the arms whose payoff [==] its first payoff. *)
Lemma winning_arm_names_sorted (arms : gmap string SampleArm) l best name rest :
  payoff_name_list arms = inr l →
  sort_reverse l = (best, name) :: rest →
  feqb best best = true →
  ∃ ws, winning_arm_names arms = inr ws
        ∧ NoDup ws
        ∧ (∀ k, k ∈ ws
                ↔ ∃ a p, arms !! k = Some a ∧ avg_payoff a = inr p
                         ∧ feqb p best = true)
        ∧ length ws = length (arms_with_payoff best arms)
        ∧ 1 ≤ length ws.
Proof.
  intros Hl Hsorted Hrefl. unfold winning_arm_names. rewrite Hl. cbn [bind].
  unfold winning_names. rewrite Hsorted.
  cbn beta iota zeta. set (f := λ x : num * string, feqb x.1 best).
  assert (List.filter f ((best, name) :: rest)
          = (best, name) :: List.filter f rest) as Hhead.
  { cbn [List.filter]. unfold f at 1. cbn [fst]. by rewrite Hrefl. }
  assert (unzip_names (List.filter f ((best, name) :: rest))
          = inr ((List.filter f ((best, name) :: rest)).*2)) as ->
    by by rewrite Hhead.
  rewrite <- Hsorted.
  pose proof (sort_reverse_perm l) as Hperm.
  eexists. split; [done|]. split; [|split; [|split]].
  - apply NoDup_filter_snd.
    rewrite Hperm, (payoff_name_list_names _ _ Hl).
    apply NoDup_fst_map_to_list.
  - intros k. rewrite list_elem_of_fmap. split.
    + intros ([p k'] & -> & [Hin Hf]%elem_of_filter_bool).
      rewrite Hperm in Hin.
      apply (elem_of_payoff_name_list _ _ _ _ Hl) in Hin as (a & Ha & Hp).
      by exists a, p.
    + intros (a & p & Ha & Hp & Hf). exists (p, k). split; [done|].
      apply elem_of_filter_bool. split; [|done].
      rewrite Hperm. apply (elem_of_payoff_name_list _ _ _ _ Hl). by exists a.
  - rewrite length_fmap. rewrite (Permutation_length (filter_perm f _ _ Hperm)).
    by apply payoff_name_list_filter.
  - rewrite length_fmap, Hsorted, Hhead. simpl. lia.
Qed.

(** The winner list of lines 78-80, whenever it is built: its names are
    distinct arms of the input, and there is at least one. *)
Lemma winning_arm_names_inr (arms : gmap string SampleArm) ws :
  winning_arm_names arms = inr ws →
  NoDup ws ∧ (∀ k, k ∈ ws → is_Some (arms !! k)) ∧ 1 ≤ length ws.
Proof.
  unfold winning_arm_names.
  destruct (payoff_name_list arms) as [e|l] eqn:Hl; [done|]. cbn [bind].
  unfold winning_names.
  pose proof (sort_reverse_perm l) as Hperm.
  destruct (sort_reverse l) as [|[best name] rest]; [done|].
  cbn beta iota zeta. set (f := λ x : num * string, feqb x.1 best).
  destruct (List.filter f ((best, name) :: rest)) as [|y ys] eqn:Hf; [done|].
  intros Hws.
  assert (ws = (List.filter f ((best, name) :: rest)).*2) as ->
    by (rewrite Hf; by injection Hws).
  split; [|split].
  - apply NoDup_filter_snd.
    rewrite Hperm, (payoff_name_list_names _ _ Hl).
    apply NoDup_fst_map_to_list.
  - intros k ([p k'] & -> & [Hin _]%elem_of_filter_bool)%list_elem_of_fmap.
    rewrite Hperm in Hin.
    apply (elem_of_payoff_name_list _ _ _ _ Hl) in Hin as (a & Ha & _).
    by exists a.
  - rewrite length_fmap, Hf. simpl. lia.
Qed.

(** The errors of lines 70-80 on a non-empty input: the [OverflowError] of
    line 72, or the [ValueError] of the unpacking on line 80. *)
Lemma winning_arm_names_inl (arms : gmap string SampleArm) e :
  arms ≠ ∅ →
  winning_arm_names arms = inl e →
  (e = OverflowError "long int too large to convert to float"
   ∧ in_range arms = false)
  ∨ (e = ValueError "need more than 0 values to unpack"
     ∧ ∃ l best name rest,
         payoff_name_list arms = inr l
         ∧ sort_reverse l = (best, name) :: rest
         ∧ feqb best best = false).
Proof.
  intros Hne. unfold winning_arm_names.
  destruct (payoff_name_list arms) as [e'|l] eqn:Hl; cbn [bind].
  { intros [= ->]. left.
    destruct (payoff_name_list_inl _ _ Hl) as (name & a & Ha & Herr).
    apply avg_payoff_inl in Herr as [Hrange ->]. split; [done|].
    apply not_true_is_false. rewrite in_range_lookup. intros Hall.
    specialize (Hall name a Ha). congruence. }
  unfold winning_names.
  pose proof (sort_reverse_perm l) as Hperm.
  destruct (sort_reverse l) as [|[best name] rest] eqn:Hs.
  { apply Permutation_nil_l in Hperm. subst l.
    by apply payoff_name_list_nil in Hl. }
  cbn beta iota zeta. cbn [List.filter fst].
  destruct (feqb best best) eqn:Hrefl; [done|].
  destruct (List.filter _ rest); [|done].
  intros [= <-]. right. split; [done|]. by exists l, best, name, rest.
Qed.

(** *** The whole method *)

(** A returned mapping: every arm named in the winner list has the baseline
    share plus the winners' share, added once, every other arm has the
    baseline share, and there is no other key. *)
Lemma allocate_arms_inr (self : EpsilonGreedy num) m :
  allocate_arms self = inr m →
  ∃ ws : list string,
    winning_arm_names (arms_sampled (_historical_info self)) = inr ws
    ∧ NoDup ws
    ∧ 1 ≤ length ws
    ∧ 1 ≤ num_arms (_historical_info self)
    ∧ ∀ name,
        m !! name
        = match arms_sampled (_historical_info self) !! name with
          | None => None
          | Some _ =>
              Some (if decide (name ∈ ws)
                    then fadd (fdiv (_epsilon self)
                                 (of_int (Z.of_nat
                                            (num_arms (_historical_info self)))))
                              (fdiv (fsub (of_int 1) (_epsilon self))
                                 (of_int (Z.of_nat (length ws))))
                    else fdiv (_epsilon self)
                           (of_int (Z.of_nat
                                      (num_arms (_historical_info self)))))
          end.
Proof.
  unfold allocate_arms. destruct (decide _) as [|Hne]; [done|].
  destruct (winning_arm_names _) as [e|ws] eqn:Hws; [done|]. cbn [bind].
  destruct (winning_arm_names_inr _ _ Hws) as (Hnd & Hdom & Hpos).
  pose proof (size_pos _ Hne) as Hsize.
  rewrite div_count_pos by done.
  cbn [bind]. rewrite div_count_pos by done. cbn [bind]. intros Hrun.
  match type of Hrun with
  | foldM (add_allocation ?w) ?m0 ws = _ =>
      destruct (add_allocation_fold w ws m0 Hnd) as (m' & Hm' & Hlookup)
  end.
  { intros k Hk%Hdom. rewrite set_allocation_lookup.
    rewrite decide_True by by apply elem_of_keys. by eexists. }
  rewrite Hm' in Hrun. injection Hrun as <-.
  exists ws. split; [done|]. split; [done|]. split; [done|]. split; [done|].
  intros name. rewrite Hlookup, set_allocation_lookup, lookup_empty.
  destruct (arms_sampled (_historical_info self) !! name) as [a|] eqn:Ha.
  - rewrite (decide_True (P := name ∈ (map_to_list _).*1))
      by (apply elem_of_keys; by eexists).
    by destruct (decide (name ∈ ws)).
  - rewrite (decide_False (P := name ∈ (map_to_list _).*1)).
    2:{ intros [a Ha']%elem_of_keys. congruence. }
    destruct (decide (name ∈ ws)) as [[a Ha']%Hdom|]; [congruence|done].
Qed.

(** A mapping is only returned for a non-empty input on which the loop of
    lines 71-73 has ended. *)
Lemma allocate_arms_inr_list (self : EpsilonGreedy num) m :
  allocate_arms self = inr m →
  arms_sampled (_historical_info self) ≠ ∅
  ∧ ∃ l, payoff_name_list (arms_sampled (_historical_info self)) = inr l.
Proof.
  unfold allocate_arms. destruct (decide _) as [|Hne]; [done|].
  unfold winning_arm_names.
  destruct (payoff_name_list _) as [e|l]; [done|]. intros _.
  split; [done|]. by exists l.
Qed.

(** The method returns as soon as the winner list is built. *)
Lemma allocate_arms_returns (self : EpsilonGreedy num) ws :
  arms_sampled (_historical_info self) ≠ ∅ →
  winning_arm_names (arms_sampled (_historical_info self)) = inr ws →
  ∃ m, allocate_arms self = inr m.
Proof.
  intros Hne Hws. unfold allocate_arms. rewrite decide_False by done.
  rewrite Hws. cbn [bind].
  destruct (winning_arm_names_inr _ _ Hws) as (Hnd & Hdom & Hpos).
  rewrite div_count_pos by by apply size_pos.
  cbn [bind]. rewrite div_count_pos by done. cbn [bind].
  edestruct (add_allocation_fold) as (m & Hm & _); [exact Hnd| |by exists m].
  intros k Hk%Hdom. rewrite set_allocation_lookup.
  rewrite decide_True by by apply elem_of_keys. by eexists.
Qed.

(** The whole method, given the list sorted on line 74: every arm gets its
    closed-form allocation. *)
Lemma allocate_arms_sorted (self : EpsilonGreedy num) l best name rest :
  payoff_name_list (arms_sampled (_historical_info self)) = inr l →
  sort_reverse l = (best, name) :: rest →
  feqb best best = true →
  ∃ m, allocate_arms self = inr m
       ∧ dom m = dom (arms_sampled (_historical_info self))
       ∧ 1 ≤ length (arms_with_payoff best
                       (arms_sampled (_historical_info self)))
       ∧ ∀ k a p,
           arms_sampled (_historical_info self) !! k = Some a →
           avg_payoff a = inr p →
           m !! k
           = Some (allocation (_epsilon self)
                     (num_arms (_historical_info self))
                     (length (arms_with_payoff best
                                (arms_sampled (_historical_info self))))
                     best p).
Proof.
  intros Hl Hsorted Hrefl.
  destruct (winning_arm_names_sorted _ l best name rest Hl Hsorted Hrefl)
    as (ws & Hws & Hnd & Hmem & Hlen & Hpos).
  assert (arms_sampled (_historical_info self) ≠ ∅) as Hne.
  { intros Hempty. rewrite Hempty in Hl.
    pose proof (payoff_name_list_length _ _ Hl) as Hlen0.
    rewrite map_size_empty in Hlen0. destruct l; [|done].
    pose proof (sort_reverse_perm (@nil (num * string))) as Hperm.
    rewrite Hsorted in Hperm. by apply Permutation_nil_r in Hperm. }
  destruct (allocate_arms_returns self ws Hne Hws) as [m Hm].
  exists m. split; [done|].
  destruct (allocate_arms_inr self m Hm) as (ws' & Hws' & _ & _ & _ & Hlookup).
  assert (ws' = ws) as -> by congruence.
  split; [|split; [lia|]].
  - apply set_eq. intros k. rewrite !elem_of_dom, Hlookup.
    destruct (arms_sampled (_historical_info self) !! k); [|done].
    split; by eexists.
  - intros k a p Ha Hp. rewrite Hlookup, Ha. f_equal.
    unfold allocation. rewrite <- Hlen.
    destruct (feqb p best) eqn:Hf.
    + rewrite decide_True; [done|]. apply Hmem. by exists a, p.
    + rewrite decide_False; [done|]. intros (a' & p' & Ha' & Hp' & Hf')%Hmem.
      congruence.
Qed.

(** *** The keys of a returned mapping *)

(** C4: the mapping that the method returns has exactly the arm names of the
    input as keys, each of them once. *)
Theorem allocation_keys (self : EpsilonGreedy num) (m : gmap string num) :
  allocate_arms self = inr m →
  dom m = dom (arms_sampled (_historical_info self))
  ∧ NoDup (map_to_list m).*1
  ∧ (map_to_list m).*1 ≡ₚ (map_to_list (arms_sampled (_historical_info self))).*1
  ∧ ∀ name, is_Some (m !! name)
            ↔ is_Some (arms_sampled (_historical_info self) !! name).
Proof.
  intros (ws & _ & _ & _ & _ & Hlookup)%allocate_arms_inr.
  assert (∀ name, is_Some (m !! name)
                  ↔ is_Some (arms_sampled (_historical_info self) !! name))
    as Hkeys.
  { intros name. rewrite Hlookup.
    destruct (arms_sampled (_historical_info self) !! name); [|done].
    split; by eexists. }
  split; [|split; [|split; [|done]]].
  - apply set_eq. intros name. rewrite !elem_of_dom. apply Hkeys.
  - apply NoDup_fst_map_to_list.
  - apply NoDup_Permutation; try apply NoDup_fst_map_to_list.
    intros name. rewrite !elem_of_keys. apply Hkeys.
Qed.

(** *** Which errors the steps can raise *)

Lemma winning_arm_names_error (arms : gmap string SampleArm) e :
  winning_arm_names arms = inl e → e ≠ EmptyInputError.
Proof.
  unfold winning_arm_names.
  destruct (payoff_name_list arms) as [e'|l] eqn:Hl; cbn [bind].
  { intros [= ->].
    destruct (payoff_name_list_inl _ _ Hl) as (name & a & _ & Herr).
    by apply avg_payoff_inl in Herr as [_ ->]. }
  unfold winning_names.
  destruct (sort_reverse l) as [|[best name] rest].
  - by intros [= <-].
  - cbn beta iota zeta. destruct (List.filter _ _); [by intros [= <-]|done].
Qed.

Lemma div_count_error (x : num) (c : nat) e :
  div_count x c = inl e → e ≠ EmptyInputError.
Proof. destruct c; [by intros [= <-]|done]. Qed.

Lemma add_allocation_error (w : num) (ws : list string) m e :
  foldM (add_allocation w) m ws = inl e → e ≠ EmptyInputError.
Proof.
  revert m. induction ws as [|k ws IH]; intros m; [done|].
  cbn [foldM]. unfold add_allocation at 1.
  destruct (m !! k); cbn [bind raise ret]; [apply IH|by intros [= <-]].
Qed.

(** *** All payoffs tied *)

Lemma all_tied_lookup (arms : gmap string SampleArm) :
  all_tied arms = true →
  ∀ name a name' a', arms !! name = Some a → arms !! name' = Some a' →
    ∃ p p', avg_payoff a = inr p ∧ avg_payoff a' = inr p'
            ∧ feqb p p' = true.
Proof.
  intros Hall name a name' a' Ha Ha'. unfold all_tied in Hall.
  rewrite forallb_forall in Hall.
  specialize (Hall (name, a)). rewrite forallb_forall in Hall.
  specialize (Hall ltac:(by apply list_elem_of_In, elem_of_map_to_list)
                   (name', a')
                   ltac:(by apply list_elem_of_In, elem_of_map_to_list)).
  unfold payoffs_eqb in Hall. cbn [snd] in Hall.
  destruct (avg_payoff a) as [|p]; [done|].
  destruct (avg_payoff a') as [|p']; [done|]. by exists p, p'.
Qed.


End Structure.
(** ** The method on a store: what it leaves untouched *)

Section StoreFrame.
Context {num : Type} {arith : Arith num}.
Implicit Types (h hinit : gmap loc (object num)) (l : loc) (o : object num).

Lemma frames_ret {A : Type} hinit (a : A) (Q : A → Prop) :
  Q a → frames hinit (sret a) Q.
Proof. intros HQ h Hh. split; [done|]. by intros ? [= <-]. Qed.

Lemma frames_raise {A : Type} hinit (e : exn) (Q : A → Prop) :
  frames hinit (sraise e) Q.
Proof. intros h Hh. by split. Qed.

Lemma frames_lift {A : Type} hinit (r : result A) :
  frames hinit (lift r) (λ _, True).
Proof. intros h Hh. by split. Qed.

Lemma frames_bind {A B : Type} hinit (c : prog num A) (k : A → prog num B)
    (Q : A → Prop) (R : B → Prop) :
  frames hinit c Q → (∀ a, Q a → frames hinit (k a) R) → frames hinit (sbind c k) R.
Proof.
  intros Hc Hk h Hh. unfold sbind. destruct (Hc h Hh) as [Hkeep HQ].
  destruct (c h) as [[e|a] h']; [by split|].
  apply (Hk a); [by apply HQ|done].
Qed.

Lemma frames_load hinit l : frames hinit (load l) (λ _, True).
Proof. intros h Hh. unfold load. by destruct (h !! l). Qed.

Lemma frames_store hinit l o : hinit !! l = None → frames hinit (store l o) (λ _, True).
Proof.
  intros Hl h Hh. split; [|done]. intros l' o' Hl'. cbn [store snd].
  rewrite lookup_insert_ne by congruence. by apply Hh.
Qed.

(** A new object never takes the place of an object of [hinit]. *)
Lemma frames_alloc hinit o : frames hinit (alloc o) (λ l, hinit !! l = None).
Proof.
  intros h Hh. unfold alloc. cbn [fst snd].
  assert (h !! fresh (dom h) = None) as Hfresh
    by apply not_elem_of_dom, is_fresh.
  assert (hinit !! fresh (dom h) = None) as Hfresh0.
  { destruct (hinit !! fresh (dom h)) as [o'|] eqn:Ho'; [|done].
    apply Hh in Ho'. congruence. }
  split; [|by intros ? [= <-]]. intros l' o' Hl'.
  rewrite lookup_insert_ne by congruence. by apply Hh.
Qed.

Lemma frames_for_each {B : Type} hinit (xs : list B) (body : B → prog num unit) :
  (∀ x, frames hinit (body x) (λ _, True)) →
  frames hinit (for_each xs body) (λ _, True).
Proof.
  intros Hbody. induction xs as [|x xs IH]; cbn [for_each].
  - by apply frames_ret.
  - eapply frames_bind; [apply Hbody|]. by intros _ _.
Qed.

Lemma frames_list_append hinit l x :
  hinit !! l = None → frames hinit (list_append l x) (λ _, True).
Proof.
  intros Hl. eapply frames_bind; [apply frames_load|]. intros o _.
  destruct o; try apply frames_raise. by apply frames_store.
Qed.

Lemma frames_append_payoff hinit l (item : string * SampleArm) :
  hinit !! l = None → frames hinit (append_payoff l item) (λ _, True).
Proof.
  intros Hl. eapply frames_bind; [apply frames_lift|]. intros x _.
  by apply frames_list_append.
Qed.

Lemma frames_list_sort_reverse hinit l :
  hinit !! l = None → frames hinit (list_sort_reverse l) (λ _, True).
Proof.
  intros Hl. eapply frames_bind; [apply frames_load|]. intros o _.
  destruct o; try apply frames_raise. by apply frames_store.
Qed.

Lemma frames_list_items hinit l : frames hinit (list_items l) (λ _, True).
Proof.
  eapply frames_bind; [apply frames_load|]. intros o _.
  destruct o; try apply frames_raise. by apply frames_ret.
Qed.

Lemma frames_dict_setitem hinit l k v :
  hinit !! l = None → frames hinit (dict_setitem l k v) (λ _, True).
Proof.
  intros Hl. eapply frames_bind; [apply frames_load|]. intros o _.
  destruct o; try apply frames_raise. by apply frames_store.
Qed.

Lemma frames_dict_iadd hinit l w k :
  hinit !! l = None → frames hinit (dict_iadd l w k) (λ _, True).
Proof.
  intros Hl. eapply frames_bind; [apply frames_load|]. intros o _.
  destruct o; try apply frames_raise.
  destruct (add_allocation _ _ _); [apply frames_raise|by apply frames_store].
Qed.

(** The method only writes to the list and the dictionary it creates. *)
Lemma allocate_arms_st_frames hinit (self : loc) :
  frames hinit (allocate_arms_st self) (λ d, hinit !! d = None).
Proof.
  unfold allocate_arms_st.
  eapply frames_bind; [apply frames_load|]. intros o _.
  destruct o as [hist eps| | |]; try apply frames_raise.
  eapply frames_bind; [apply frames_load|]. intros o _.
  destruct o as [|arms| |]; try apply frames_raise.
  destruct (decide (arms = ∅)); [apply frames_raise|].
  eapply frames_bind; [apply frames_alloc|]. intros lst Hlst. cbn beta in Hlst.
  eapply frames_bind.
  { apply frames_for_each. intros x. by apply frames_append_payoff. }
  intros _ _. eapply frames_bind; [by apply frames_list_sort_reverse|].
  intros _ _. eapply frames_bind; [apply frames_list_items|].
  intros [|[best name] rest] _; [apply frames_raise|].
  cbn zeta. eapply frames_bind; [apply frames_lift|]. intros ws _.
  eapply frames_bind; [apply frames_lift|]. intros b _.
  eapply frames_bind; [apply frames_alloc|]. intros d Hd. cbn beta in Hd.
  eapply frames_bind.
  { apply frames_for_each. intros x. by apply frames_dict_setitem. }
  intros _ _. eapply frames_bind; [apply frames_lift|]. intros w _.
  eapply frames_bind.
  { apply frames_for_each. intros x. by apply frames_dict_iadd. }
  intros _ _. by apply frames_ret.
Qed.

(** *** The store model computes what the method computes *)

Lemma sbind_load {B : Type} h l o (k : object num → prog num B) :
  h !! l = Some o → sbind (load l) k h = k o h.
Proof. intros Hl. unfold sbind, load. by rewrite Hl. Qed.

Lemma sbind_inr {A B : Type} h h' (c : prog num A) (k : A → prog num B) a :
  c h = (inr a, h') → sbind c k h = k a h'.
Proof. intros Hc. unfold sbind. by rewrite Hc. Qed.

Lemma list_append_run h l items (x : num * string) :
  h !! l = Some (ListObject items) →
  list_append l x h = (inr tt, <[l := ListObject (items ++ [x])]> h).
Proof. intros Hl. unfold list_append. by rewrite (sbind_load _ _ _ _ Hl). Qed.

Lemma list_sort_reverse_run h l items :
  h !! l = Some (ListObject items) →
  list_sort_reverse l h = (inr tt, <[l := ListObject (sort_reverse items)]> h).
Proof.
  intros Hl. unfold list_sort_reverse. by rewrite (sbind_load _ _ _ _ Hl).
Qed.

Lemma list_items_run h l items :
  h !! l = Some (ListObject items) → list_items l h = (inr items, h).
Proof. intros Hl. unfold list_items. by rewrite (sbind_load _ _ _ _ Hl). Qed.

Lemma dict_setitem_run h l m k (v : num) :
  h !! l = Some (DictObject m) →
  dict_setitem l k v h = (inr tt, <[l := DictObject (set_allocation v m k)]> h).
Proof. intros Hl. unfold dict_setitem. by rewrite (sbind_load _ _ _ _ Hl). Qed.

Lemma dict_iadd_run h l m k (w : num) :
  h !! l = Some (DictObject m) →
  dict_iadd l w k h
  = match add_allocation w m k with
    | inl e => (inl e, h)
    | inr m' => (inr tt, <[l := DictObject m']> h)
    end.
Proof.
  intros Hl. unfold dict_iadd. rewrite (sbind_load _ _ _ _ Hl).
  by destruct (add_allocation w m k).
Qed.

Lemma append_payoff_run h l items (item : string * SampleArm) :
  h !! l = Some (ListObject items) →
  append_payoff l item h
  = match payoff_name item with
    | inl e => (inl e, h)
    | inr x => (inr tt, <[l := ListObject (items ++ [x])]> h)
    end.
Proof.
  intros Hl. unfold append_payoff, sbind, lift.
  destruct (payoff_name item) as [e|x]; [done|]. by apply list_append_run.
Qed.

Lemma for_each_append_payoff h l (xs : list (string * SampleArm))
    (acc : list (num * string)) :
  h !! l = Some (ListObject acc) →
  match mapM payoff_name xs with
  | inl e => (for_each xs (append_payoff l) h).1 = inl e
  | inr ps =>
      for_each xs (append_payoff l) h
      = (inr tt, <[l := ListObject (acc ++ ps)]> h)
  end.
Proof.
  revert h acc. induction xs as [|x xs IH]; intros h acc Hl;
    cbn [for_each mapM].
  - unfold sret, ret. rewrite app_nil_r. by rewrite insert_id.
  - unfold sbind. rewrite (append_payoff_run _ _ _ _ Hl).
    destruct (payoff_name x) as [e|p]; cbn [bind]; [done|].
    specialize (IH (<[l := ListObject (acc ++ [p])]> h) (acc ++ [p])
                   (lookup_insert_eq _ _ _)).
    destruct (mapM payoff_name xs) as [e|ps]; cbn [bind ret]; [done|].
    rewrite IH, insert_insert_eq. by rewrite <- app_assoc.
Qed.

Lemma for_each_dict_setitem h l (v : num) (ks : list string) m :
  h !! l = Some (DictObject m) →
  for_each ks (λ k, dict_setitem l k v) h
  = (inr tt, <[l := DictObject (foldl (set_allocation v) m ks)]> h).
Proof.
  revert h m. induction ks as [|k ks IH]; intros h m Hl; cbn [for_each foldl].
  - unfold sret. by rewrite insert_id.
  - erewrite sbind_inr; [|by apply dict_setitem_run].
    rewrite (IH _ (set_allocation v m k)) by apply lookup_insert_eq.
    by rewrite insert_insert_eq.
Qed.

Lemma for_each_dict_iadd h l (w : num) (ws : list string) m :
  h !! l = Some (DictObject m) →
  match foldM (add_allocation w) m ws with
  | inl e => (for_each ws (dict_iadd l w) h).1 = inl e
  | inr m' =>
      for_each ws (dict_iadd l w) h = (inr tt, <[l := DictObject m']> h)
  end.
Proof.
  revert h m. induction ws as [|k ws IH]; intros h m Hl; cbn [for_each foldM].
  - unfold sret, ret. by rewrite insert_id.
  - unfold sbind. rewrite (dict_iadd_run _ _ _ _ _ Hl).
    destruct (add_allocation w m k) as [e|m1]; cbn [bind]; [done|].
    specialize (IH (<[l := DictObject m1]> h) m1 (lookup_insert_eq _ _ _)).
    destruct (foldM (add_allocation w) m1 ws) as [e|m']; [done|].
    by rewrite IH, insert_insert_eq.
Qed.

(** On a store holding [self] and its [HistoricalData], the store model
    raises what [allocate_arms] raises, and returns a reference to a
    dictionary holding what it returns. *)
Lemma allocate_arms_st_refines h (self hist : loc) (eps : num)
    (arms : gmap string SampleArm) :
  h !! self = Some (EpsilonGreedyObject hist eps) →
  h !! hist = Some (HistoricalDataObject arms) →
  match allocate_arms {| _historical_info := {| arms_sampled := arms |};
                         _epsilon := eps |} with
  | inl e => (allocate_arms_st self h).1 = inl e
  | inr m =>
      ∃ d, (allocate_arms_st self h).1 = inr d
           ∧ (allocate_arms_st self h).2 !! d = Some (DictObject m)
  end.
Proof.
  intros Hself Hhist.
  destruct (allocate_arms_st self h) as [r h'] eqn:Hrun. cbn [fst snd].
  unfold allocate_arms, num_arms. unfold allocate_arms_st in Hrun.
  cbn [_historical_info _epsilon arms_sampled].
  rewrite (sbind_load _ _ _ _ Hself), (sbind_load _ _ _ _ Hhist) in Hrun.
  destruct (decide (arms = ∅)) as [Hempty|Hne]; [by injection Hrun as <- <-|].
  erewrite sbind_inr in Hrun; [|reflexivity].
  set (lst := fresh (dom h)) in Hrun.
  pose proof (for_each_append_payoff (<[lst := ListObject []]> h) lst
                (map_to_list arms) [] (lookup_insert_eq _ _ _)) as Hloop1.
  unfold winning_arm_names, payoff_name_list.
  destruct (mapM payoff_name (map_to_list arms)) as [e|ps]; cbn [bind].
  { unfold sbind at 1 in Hrun.
    destruct (for_each (map_to_list arms) _ _) as [[e'|[]] h1];
      cbn [fst] in Hloop1; [|discriminate Hloop1].
    injection Hrun as <- <-. congruence. }
  erewrite sbind_inr in Hrun; [|exact Hloop1].
  cbn [app] in Hrun. rewrite insert_insert_eq in Hrun.
  erewrite sbind_inr in Hrun;
    [|by apply list_sort_reverse_run, lookup_insert_eq].
  rewrite insert_insert_eq in Hrun.
  erewrite sbind_inr in Hrun; [|by apply list_items_run, lookup_insert_eq].
  unfold winning_names.
  destruct (sort_reverse ps) as [|[best name] rest] eqn:Hs;
    [by injection Hrun as <- <-|].
  cbn beta iota zeta in *.
  set (h2 := <[lst := ListObject ((best, name) :: rest)]> h) in Hrun.
  unfold sbind at 1 in Hrun. unfold lift at 1 in Hrun.
  destruct (unzip_names _) as [e|ws]; cbn [bind];
    [by injection Hrun as <- <-|].
  unfold sbind at 1 in Hrun. unfold lift at 1 in Hrun.
  destruct (div_count eps (size arms)) as [e|b]; cbn [bind];
    [by injection Hrun as <- <-|].
  erewrite sbind_inr in Hrun; [|reflexivity].
  set (d := fresh (dom h2)) in Hrun.
  erewrite sbind_inr in Hrun;
    [|by apply (for_each_dict_setitem _ d b _ ∅), lookup_insert_eq].
  rewrite insert_insert_eq in Hrun.
  unfold sbind at 1 in Hrun. unfold lift at 1 in Hrun.
  destruct (div_count (fsub (of_int 1) eps) (length ws)) as [e|w];
    cbn [bind]; [by injection Hrun as <- <-|].
  set (m0 := foldl (set_allocation b) ∅ (map_to_list arms).*1) in *.
  pose proof (for_each_dict_iadd (<[d := DictObject m0]> h2) d w ws m0
                (lookup_insert_eq _ _ _)) as Hloop.
  unfold sbind in Hrun.
  destruct (foldM (add_allocation w) m0 ws) as [e|m].
  - destruct (for_each ws _ _) as [[e'|[]] h3]; cbn [fst] in Hloop;
      [|discriminate Hloop].
    injection Hrun as <- <-. congruence.
  - rewrite Hloop in Hrun. injection Hrun as <- <-. exists d.
    split; [done|]. by rewrite insert_insert_eq, lookup_insert_eq.
Qed.

(** C9: the method leaves every object of the store it is called on as it
    was, [self] and its [historical_info] among them, whether it returns or
    raises; what it returns is a reference that was not in that store, to a
    dictionary it has built. *)
Theorem allocate_arms_leaves_store (h : gmap loc (object num)) (self : loc) :
  (∀ l o, h !! l = Some o → (allocate_arms_st self h).2 !! l = Some o)
  ∧ (∀ d, (allocate_arms_st self h).1 = inr d →
       h !! d = None
       ∧ ∃ m, (allocate_arms_st self h).2 !! d = Some (DictObject m)).
Proof.
  destruct (allocate_arms_st_frames h self h) as [Hkeep Hfresh];
    [by intros ? ?|].
  split; [done|]. intros d Hd. split; [by apply Hfresh|].
  destruct (h !! self) as [[hist eps| | |]|] eqn:Hself;
    try (unfold allocate_arms_st, sbind, load in Hd; rewrite Hself in Hd;
         discriminate Hd).
  destruct (h !! hist) as [[|arms| |]|] eqn:Hhist;
    try (unfold allocate_arms_st in Hd;
         rewrite (sbind_load _ _ _ _ Hself) in Hd;
         unfold sbind, load in Hd; rewrite Hhist in Hd; discriminate Hd).
  pose proof (allocate_arms_st_refines h self hist eps arms Hself Hhist) as Href.
  destruct (allocate_arms _) as [e|m]; [congruence|].
  destruct Href as (d' & Hd' & Hm). exists m. congruence.
Qed.

(** C3: the method fails with the error of line 69 exactly when
    [arms_sampled] is empty, so on a non-empty input this error is not
    raised; on an empty input it returns no mapping, and the store it was
    called on is left as it was: nothing was created. *)
Theorem empty_input_error (self : EpsilonGreedy num) :
  (allocate_arms self = inl EmptyInputError
   ↔ arms_sampled (_historical_info self) = ∅)
  ∧ (arms_sampled (_historical_info self) = ∅ →
     (∀ m, allocate_arms self ≠ inr m)
     ∧ ∀ h (self_ref hist : loc),
         h !! self_ref = Some (EpsilonGreedyObject hist (_epsilon self)) →
         h !! hist = Some (HistoricalDataObject ∅) →
         allocate_arms_st self_ref h = (inl EmptyInputError, h)).
Proof.
  split.
  - unfold allocate_arms.
    destruct (decide (arms_sampled (_historical_info self) = ∅)) as [?|Hne];
      [done|].
    split; [|done]. intros Herr. exfalso.
    destruct (winning_arm_names _) as [e|ws] eqn:Hws; cbn [bind] in Herr.
    { injection Herr as ->. by eapply winning_arm_names_error. }
    destruct (div_count (_epsilon self) _) as [e|b] eqn:Hb; cbn [bind] in Herr.
    { injection Herr as ->. by eapply div_count_error. }
    destruct (div_count (fsub _ _) _) as [e|w] eqn:Hw; cbn [bind] in Herr.
    { injection Herr as ->. by eapply div_count_error. }
    by eapply add_allocation_error.
  - intros Hempty. split.
    + intros m. unfold allocate_arms. by rewrite decide_True.
    + intros h self_ref hist Hself Hhist. unfold allocate_arms_st.
      rewrite (sbind_load _ _ _ _ Hself), (sbind_load _ _ _ _ Hhist).
      by rewrite decide_True.
Qed.

End StoreFrame.

(** ** Outcomes of a call, in any arithmetic *)

Section Outcomes.
Context {num : Type} {arith : Arith num}.

(** X1: on a non-empty input, in any arithmetic, the method either returns a
    mapping, or raises the [OverflowError] of line 72, and this only when
    the counts of some arm are outside the float64 range, or raises the
    [ValueError] of the unpacking on line 80, and this only when the first
    payoff of the sorted list is not [==] to itself; it raises no
    [IndexError], [KeyError] or [ZeroDivisionError]. *)
Theorem nonempty_input_outcome (self : EpsilonGreedy num) :
  arms_sampled (_historical_info self) ≠ ∅ →
  (∃ m : gmap string num, allocate_arms self = inr m)
  ∨ (allocate_arms self
     = inl (OverflowError "long int too large to convert to float")
     ∧ in_range (arms_sampled (_historical_info self)) = false)
  ∨ (allocate_arms self = inl (ValueError "need more than 0 values to unpack")
     ∧ ∃ l best name rest,
         payoff_name_list (arms_sampled (_historical_info self)) = inr l
         ∧ sort_reverse l = (best, name) :: rest
         ∧ feqb best best = false).
Proof.
  intros Hne.
  destruct (winning_arm_names (arms_sampled (_historical_info self)))
    as [e|ws] eqn:Hws.
  - right. unfold allocate_arms. rewrite decide_False by done.
    rewrite Hws. cbn [bind].
    destruct (winning_arm_names_inl _ _ Hne Hws) as [[-> ?]|[-> ?]];
      [by left|by right].
  - left. by eapply allocate_arms_returns.
Qed.

(** X2: in any arithmetic, a returned mapping has only two values: every arm
    named in the winner list gets the baseline share plus the winners' share,
    added once, and every other arm of the input gets the baseline share;
    names that are not arms of the input are not keys. *)
Theorem returned_mapping_values (self : EpsilonGreedy num) m :
  allocate_arms self = inr m →
  ∃ ws : list string,
    winning_arm_names (arms_sampled (_historical_info self)) = inr ws
    ∧ NoDup ws
    ∧ 1 ≤ length ws
    ∧ ∀ name,
        m !! name
        = match arms_sampled (_historical_info self) !! name with
          | None => None
          | Some _ =>
              Some (if decide (name ∈ ws)
                    then fadd (fdiv (_epsilon self)
                                 (of_int (Z.of_nat
                                            (num_arms (_historical_info self)))))
                              (fdiv (fsub (of_int 1) (_epsilon self))
                                 (of_int (Z.of_nat (length ws))))
                    else fdiv (_epsilon self)
                           (of_int (Z.of_nat
                                      (num_arms (_historical_info self)))))
          end.
Proof.
  intros (ws & Hws & Hnd & Hpos & _ & Hlookup)%allocate_arms_inr.
  exists ws. split; [done|]. split; [done|]. split; [done|]. exact Hlookup.
Qed.

End Outcomes.

(** ** Calling the method again *)

Section StoreCalls.
Context {num : Type} {arith : Arith num}.

(** X3: the method keeps no state between calls: called twice in a row on a
    store holding [self] and its [HistoricalData], it returns two different
    new dictionaries, both holding the allocation that [allocate_arms]
    computes, and the second call leaves the first dictionary as it was. *)
Theorem allocate_arms_twice (h : gmap loc (object num)) (self hist : loc)
    (eps : num) (arms : gmap string SampleArm) (m : gmap string num) :
  h !! self = Some (EpsilonGreedyObject hist eps) →
  h !! hist = Some (HistoricalDataObject arms) →
  allocate_arms {| _historical_info := {| arms_sampled := arms |};
                   _epsilon := eps |} = inr m →
  ∃ d1 d2 : loc,
    (allocate_arms_st self h).1 = inr d1
    ∧ (allocate_arms_st self (allocate_arms_st self h).2).1 = inr d2
    ∧ d1 ≠ d2
    ∧ (allocate_arms_st self (allocate_arms_st self h).2).2 !! d1
      = Some (DictObject m)
    ∧ (allocate_arms_st self (allocate_arms_st self h).2).2 !! d2
      = Some (DictObject m).
Proof.
  intros Hself Hhist Hpure.
  pose proof (allocate_arms_st_refines h self hist eps arms Hself Hhist) as H1.
  rewrite Hpure in H1. destruct H1 as (d1 & Hd1 & Hm1).
  destruct (allocate_arms_st_frames h self h) as [Hkeep1 _]; [by intros ? ?|].
  set (h1 := (allocate_arms_st self h).2) in *.
  pose proof (allocate_arms_st_refines h1 self hist eps arms
                (Hkeep1 _ _ Hself) (Hkeep1 _ _ Hhist)) as H2.
  rewrite Hpure in H2. destruct H2 as (d2 & Hd2 & Hm2).
  destruct (allocate_arms_st_frames h1 self h1) as [Hkeep2 Hfresh2];
    [by intros ? ?|].
  exists d1, d2. split; [done|]. split; [done|].
  split; [|split; [by apply Hkeep2|done]].
  intros ->. specialize (Hfresh2 _ Hd2). cbn beta in Hfresh2. congruence.
Qed.

End StoreCalls.


(** ** Binary64: comparisons, rounding and the conversion of integers *)

Section Order.
Local Open Scope Z_scope.

Ltac compare_cases :=
  repeat match goal with
  | |- context [Z.compare ?a ?b] => destruct (Z.compare_spec a b)
  | |- context [Pos.compare_cont Eq ?a ?b] =>
      change (Pos.compare_cont Eq a b) with (Pos.compare a b);
      destruct (Pos.compare_spec a b)
  end.

Lemma SFleb_key x y :
  SFleb x y = true
  ↔ sf_nan x = false ∧ sf_nan y = false ∧ key_le (sf_key x) (sf_key y).
Proof.
  unfold SFleb, key_le.
  destruct x as [[]|[]| |[] mx ex], y as [[]|[]| |[] my ey];
    cbn [SFcompare sf_key sf_nan fst snd]; compare_cases; cbn [CompOpp];
    split; try (intros (? & ? & ?)); try done; try (intros _; split; [done|split; [done|]]); lia.
Qed.

Lemma SFltb_key x y :
  SFltb x y = true
  ↔ sf_nan x = false ∧ sf_nan y = false ∧ key_lt (sf_key x) (sf_key y).
Proof.
  unfold SFltb, key_lt.
  destruct x as [[]|[]| |[] mx ex], y as [[]|[]| |[] my ey];
    cbn [SFcompare sf_key sf_nan fst snd]; compare_cases; cbn [CompOpp];
    split; try (intros (? & ? & ?)); try done; try (intros _; split; [done|split; [done|]]); lia.
Qed.

Lemma SFeqb_key x y :
  SFeqb x y = true
  ↔ sf_nan x = false ∧ sf_nan y = false ∧ sf_key x = sf_key y.
Proof.
  unfold SFeqb.
  destruct x as [[]|[]| |[] mx ex], y as [[]|[]| |[] my ey];
    cbn [SFcompare sf_key sf_nan fst snd]; compare_cases; cbn [CompOpp];
    split; try (intros (? & ? & ?)); try done;
    try (intros _; split; [done|split; [done|]]);
    try (f_equal; [f_equal|]; lia); simplify_eq; lia.
Qed.
End Order.

Section Digits.
Local Open Scope Z_scope.

Lemma digits2_pos_size p : digits2_pos p = Pos.size p.
Proof. induction p; simpl; congruence. Qed.

Lemma Zdigits2_log2 m : 0 < m → Zdigits2 m = Z.log2 m + 1.
Proof.
  destruct m as [|p|p]; try lia. intros _. cbn [Zdigits2].
  rewrite digits2_pos_size. destruct p; simpl; lia.
Qed.

Lemma Zdigits2_nonneg m : 0 ≤ Zdigits2 m.
Proof. destruct m; simpl; lia. Qed.

Lemma Zdigits2_bounds m :
  0 < m → 0 < Zdigits2 m ∧ 2 ^ (Zdigits2 m - 1) ≤ m < 2 ^ Zdigits2 m.
Proof.
  intros Hm. rewrite Zdigits2_log2 by done.
  pose proof (Z.log2_nonneg m). pose proof (Z.log2_spec m Hm).
  replace (Z.log2 m + 1 - 1) with (Z.log2 m) by lia.
  replace (Z.log2 m + 1) with (Z.succ (Z.log2 m)) by lia. lia.
Qed.

Lemma Zdigits2_unique m d :
  0 < d → 2 ^ (d - 1) ≤ m < 2 ^ d → Zdigits2 m = d.
Proof.
  intros Hd Hm.
  assert (0 < m) by (pose proof (Z.pow_pos_nonneg 2 (d - 1)); lia).
  rewrite Zdigits2_log2 by done.
  rewrite (Z.log2_unique m (d - 1)); [lia|lia|].
  replace (Z.succ (d - 1)) with d by lia. done.
Qed.

Lemma Zdigits2_le m m' : 0 ≤ m → m ≤ m' → Zdigits2 m ≤ Zdigits2 m'.
Proof.
  intros Hm Hle. destruct (Z.eq_dec m 0) as [->|].
  - apply Zdigits2_nonneg.
  - rewrite !Zdigits2_log2 by lia. pose proof (Z.log2_le_mono m m' Hle). lia.
Qed.

Lemma Zdigits2_mul_pow2 m n :
  0 < m → 0 ≤ n → Zdigits2 (m * 2 ^ n) = Zdigits2 m + n.
Proof.
  intros Hm Hn.
  assert (0 < 2 ^ n) by (by apply Z.pow_pos_nonneg).
  rewrite !Zdigits2_log2 by nia.
  rewrite Z.log2_mul_pow2 by lia. lia.
Qed.

Lemma Zdigits2_div_pow2 m n :
  0 ≤ m → 0 ≤ n → Zdigits2 (m / 2 ^ n) = Z.max 0 (Zdigits2 m - n).
Proof.
  intros Hm Hn. destruct (Z.eq_dec m 0) as [->|Hm0].
  { rewrite Z.div_0_l by (apply Z.pow_nonzero; lia). simpl. lia. }
  assert (0 < 2 ^ n) by (by apply Z.pow_pos_nonneg).
  destruct (Zdigits2_bounds m ltac:(lia)) as (Hd & Hlo & Hhi).
  destruct (Z_lt_le_dec (Zdigits2 m) (n + 1)) as [Hlt|Hge].
  - assert (m < 2 ^ n).
    { eapply Z.lt_le_trans; [exact Hhi|]. apply Z.pow_le_mono_r; lia. }
    rewrite Z.div_small by lia. simpl. lia.
  - rewrite Z.max_r by lia. apply Zdigits2_unique; [lia|].
    replace (Zdigits2 m) with ((Zdigits2 m - n) + n) in Hhi by lia.
    replace (Zdigits2 m - 1) with ((Zdigits2 m - n - 1) + n) in Hlo by lia.
    rewrite Z.pow_add_r in Hlo, Hhi by lia. split.
    + apply Z.div_le_lower_bound; lia.
    + apply Z.div_lt_upper_bound; lia.
Qed.

Lemma Zdigits2_succ m :
  0 ≤ m →
  Zdigits2 (m + 1) = Zdigits2 m
  ∨ Zdigits2 (m + 1) = Zdigits2 m + 1 ∧ m + 1 = 2 ^ Zdigits2 m.
Proof.
  intros Hm. destruct (Z.eq_dec m 0) as [->|Hm0]; [right; by vm_compute|].
  destruct (Zdigits2_bounds m ltac:(lia)) as (Hd & Hlo & Hhi).
  destruct (Z.eq_dec (m + 1) (2 ^ Zdigits2 m)) as [Heq|Hne].
  - right. split; [|done]. apply Zdigits2_unique; [lia|].
    replace (Zdigits2 m + 1 - 1) with (Zdigits2 m) by lia.
    rewrite Z.pow_add_r by lia. lia.
  - left. apply Zdigits2_unique; [lia|]. lia.
Qed.

(** *** Shifting a mantissa to the right *)

Lemma shr_1_m mrs : 0 ≤ shr_m mrs → shr_m (shr_1 mrs) = shr_m mrs / 2.
Proof.
  destruct mrs as [[|[p|p|]|p] r s]; cbn [shr_m shr_1]; try lia; intros _.
  - done.
  - apply (Z.div_unique_pos _ _ _ 1); lia.
  - apply (Z.div_unique_pos _ _ _ 0); lia.
  - done.
Qed.

Lemma iter_shr_1_m p mrs :
  0 ≤ shr_m mrs → shr_m (SpecFloat.iter_pos shr_1 p mrs) = shr_m mrs / 2 ^ Z.pos p.
Proof.
  revert mrs. induction p as [p IH|p IH|]; intros mrs Hm;
    cbn [SpecFloat.iter_pos];
    try pose proof (Z.pow_pos_nonneg 2 (Z.pos p) ltac:(lia) ltac:(lia)) as Hpow.
  - assert (0 ≤ shr_m (shr_1 mrs)) as H1
      by (rewrite shr_1_m by done; by apply Z.div_pos).
    assert (0 ≤ shr_m (SpecFloat.iter_pos shr_1 p (shr_1 mrs))) as H2
      by (rewrite IH by done; apply Z.div_pos; [done|by apply Z.pow_pos_nonneg]).
    assert (2 ^ Z.pos p~1 = 2 * 2 ^ Z.pos p * 2 ^ Z.pos p) as ->.
    { rewrite <- Z.mul_assoc, <- Z.pow_add_r by lia.
      rewrite <- (Z.pow_1_r 2) at 2. rewrite <- Z.pow_add_r by lia.
      f_equal. lia. }
    rewrite IH, IH, shr_1_m by done.
    rewrite !Z.div_div by lia; f_equal; lia.
  - assert (0 ≤ shr_m (SpecFloat.iter_pos shr_1 p mrs)) as H2
      by (rewrite IH by done; apply Z.div_pos; [done|by apply Z.pow_pos_nonneg]).
    assert (2 ^ Z.pos p~0 = 2 ^ Z.pos p * 2 ^ Z.pos p) as ->.
    { rewrite <- Z.pow_add_r by lia. f_equal. lia. }
    rewrite IH, IH by done.
    rewrite !Z.div_div by lia; f_equal; lia.
  - by rewrite shr_1_m.
Qed.

Lemma shr_spec mrs e n :
  0 ≤ shr_m mrs →
  shr_m (shr mrs e n).1 = shr_m mrs / 2 ^ Z.max 0 n
  ∧ (shr mrs e n).2 = e + Z.max 0 n
  ∧ (n ≤ 0 → (shr mrs e n).1 = mrs).
Proof.
  intros Hm. destruct n as [|p|p]; cbn [shr fst snd].
  - rewrite Z.div_1_r. split; [done|]. split; [lia|done].
  - rewrite Z.max_r by lia. split; [by apply iter_shr_1_m|].
    split; [done|lia].
  - rewrite Z.max_l by lia. rewrite Z.div_1_r. split; [done|].
    split; [lia|done].
Qed.

Lemma shr_record_of_loc_m m l : shr_m (shr_record_of_loc m l) = m.
Proof. by destruct l as [|[]]. Qed.

Lemma round_nearest_even_bounds m l :
  m ≤ round_nearest_even m l ≤ m + 1.
Proof.
  destruct l as [|[]]; cbn [round_nearest_even]; try lia.
  destruct (Z.even m); lia.
Qed.
End Digits.

Section Rounding.
Local Open Scope Z_scope.

Lemma fexp_eq e : fexp prec emax e = Z.max (e - 53) (-1074).
Proof. reflexivity. Qed.

Lemma binary_round_aux_eq sx mx ex lx :
  0 ≤ mx →
  ∃ m2,
    let n1 := Z.max 0 (fexp prec emax (Zdigits2 mx + ex) - ex) in
    let m1 := mx / 2 ^ n1 in
    let e1 := ex + n1 in
    let n2 := Z.max 0 (fexp prec emax (Zdigits2 m2 + e1) - e1) in
    m1 ≤ m2 ≤ m1 + 1
    ∧ (lx = loc_Exact → n1 = 0 → m2 = mx)
    ∧ binary_round_aux prec emax sx mx ex lx
      = match m2 / 2 ^ n2 with
        | 0 => S754_zero sx
        | Z.pos m =>
            if e1 + n2 <=? emax - prec
            then S754_finite sx m (e1 + n2)
            else S754_infinity sx
        | Z.neg _ => S754_nan
        end.
Proof.
  intros Hmx. unfold binary_round_aux, shr_fexp.
  set (n := fexp prec emax (Zdigits2 mx + ex) - ex).
  pose proof (shr_spec (shr_record_of_loc mx lx) ex n) as Hshr.
  rewrite shr_record_of_loc_m in Hshr. specialize (Hshr Hmx).
  destruct (shr (shr_record_of_loc mx lx) ex n) as [mrs' e'].
  cbn [fst snd] in Hshr. destruct Hshr as (Hm1 & -> & Hexact).
  set (m2 := round_nearest_even (shr_m mrs') (loc_of_shr_record mrs')).
  exists m2. cbn zeta.
  assert (0 ≤ shr_m mrs') as Hm1pos
    by (rewrite Hm1; apply Z.div_pos; [done|apply Z.pow_pos_nonneg; lia]).
  pose proof (round_nearest_even_bounds (shr_m mrs') (loc_of_shr_record mrs'))
    as Hm2. fold m2 in Hm2. rewrite Hm1 in Hm2.
  split; [done|]. split.
  { intros -> Hn. unfold m2. rewrite Hexact by lia. done. }
  set (n' := fexp prec emax (Zdigits2 m2 + (ex + Z.max 0 n))
             - (ex + Z.max 0 n)).
  pose proof (shr_spec (shr_record_of_loc m2 loc_Exact) (ex + Z.max 0 n) n')
    as Hshr.
  rewrite shr_record_of_loc_m in Hshr. specialize (Hshr ltac:(lia)).
  destruct (shr (shr_record_of_loc m2 loc_Exact) (ex + Z.max 0 n) n')
    as [mrs'' e''].
  cbn [fst snd] in Hshr. destruct Hshr as (-> & -> & _). done.
Qed.

(** Rounding a mantissa that is at least as precise as the format: the
    result is the mantissa divided by the excess precision, or its successor,
    at the exponent of the format. *)
Lemma binary_round_aux_canonical sx mx ex lx :
  0 ≤ mx → ex ≤ fexp prec emax (Zdigits2 mx + ex) →
  let E := fexp prec emax (Zdigits2 mx + ex) in
  let m1 := mx / 2 ^ (E - ex) in
  match binary_round_aux prec emax sx mx ex lx with
  | S754_nan => False
  | S754_zero s => s = sx ∧ m1 = 0
  | S754_infinity s => s = sx ∧ emax - prec ≤ E
  | S754_finite s m e =>
      s = sx
      ∧ bounded prec emax m e = true
      ∧ (e = E ∧ m1 ≤ Z.pos m ≤ m1 + 1
         ∨ e = E + 1 ∧ Z.pos m = 2 ^ 52 ∧ m1 + 1 = 2 ^ 53)
      ∧ (lx = loc_Exact → E = ex → e = ex ∧ Z.pos m = mx)
  end.
Proof.
  intros Hmx Hex.
  destruct (binary_round_aux_eq sx mx ex lx Hmx) as (m2 & Hm2 & Hexact & ->).
  cbn zeta in *.
  set (E := fexp prec emax (Zdigits2 mx + ex)) in *.
  rewrite (Z.max_r 0 (E - ex)) in * by lia.
  replace (ex + (E - ex)) with E in * by lia.
  set (m1 := mx / 2 ^ (E - ex)) in *.
  assert (0 ≤ m1) as Hm1
    by (apply Z.div_pos; [done|apply Z.pow_pos_nonneg; lia]).
  pose proof (Zdigits2_div_pow2 mx (E - ex) Hmx ltac:(lia)) as Hd1.
  fold m1 in Hd1.
  pose proof (Zdigits2_nonneg mx) as Hd.
  (* digits of m1 are at most 53, exactly 53 above the smallest exponent *)
  assert (Zdigits2 m1 ≤ 53 ∧ (-1074 < E → Zdigits2 m1 = 53)) as [Hd1le Hd1eq].
  { unfold E in *. rewrite fexp_eq in *. lia. }
  assert (-1074 ≤ E) as HE by (unfold E; rewrite fexp_eq; lia).
  (* digits of m2 *)
  assert (Zdigits2 m2 ≤ 53 ∧ (-1074 < E → Zdigits2 m2 = 53) ∧ (0 < m2 → ∀ m, m2 = Z.pos m → bounded prec emax m E = (E <=? emax - prec))
          ∨ m2 = 2 ^ 53 ∧ m1 + 1 = 2 ^ 53) as Hcases.
  { destruct (Z.eq_dec m2 m1) as [->|Hne].
    - left. split; [done|]. split; [done|]. intros _ m Hm.
      unfold bounded, canonical_mantissa. rewrite fexp_eq.
      rewrite Hm in Hd1le, Hd1eq. cbn [Zdigits2] in Hd1le, Hd1eq.
      replace (Z.max (Z.pos (digits2_pos m) + E - 53) (-1074) =? E) with true;
        [done|]. symmetry. apply Z.eqb_eq. lia.
    - assert (m2 = m1 + 1) as -> by lia.
      destruct (Zdigits2_succ m1 Hm1) as [Heq|[Heq Hpow]].
      + left. rewrite Heq. split; [done|]. split; [done|]. intros _ m Hm.
        unfold bounded, canonical_mantissa. rewrite fexp_eq.
        rewrite Hm in Heq. cbn [Zdigits2] in Heq.
        replace (Z.max (Z.pos (digits2_pos m) + E - 53) (-1074) =? E) with true;
          [done|]. symmetry. apply Z.eqb_eq. lia.
      + destruct (Z.eq_dec (Zdigits2 m1) 53) as [H53|H53].
        * right. rewrite Hpow, H53. done.
        * left. assert (Zdigits2 (m1 + 1) ≤ 53) by lia.
          split; [done|]. split; [lia|]. intros _ m Hm.
          unfold bounded, canonical_mantissa. rewrite fexp_eq.
          rewrite Hm in Heq. cbn [Zdigits2] in Heq.
          replace (Z.max (Z.pos (digits2_pos m) + E - 53) (-1074) =? E)
            with true; [done|]. symmetry. apply Z.eqb_eq. lia. }
  destruct Hcases as [(Hd2 & Hd2eq & Hbounded)|[-> Hpow]].
  - assert (fexp prec emax (Zdigits2 m2 + E) - E ≤ 0) as Hn2
      by (rewrite fexp_eq; lia).
    rewrite (Z.max_l 0) by lia. rewrite Z.div_1_r, Z.add_0_r.
    destruct m2 as [|m|m] eqn:Hm2eq; [split; [done|lia]| |lia].
    destruct (E <=? emax - prec) eqn:Hle.
    + split; [done|]. split; [by rewrite (Hbounded ltac:(lia) m eq_refl)|].
      split; [left; split; [done|lia]|].
      intros Hl HEex. split; [lia|]. rewrite Hexact; [done|done|lia].
    + apply Z.leb_gt in Hle. split; [done|lia].
  - change (Zdigits2 (2 ^ 53)) with 54.
    assert (fexp prec emax (54 + E) - E = 1) as -> by (rewrite fexp_eq; lia).
    change (2 ^ 53 / 2 ^ Z.max 0 1) with (Z.pos (2 ^ 52)).
    change (Z.max 0 1) with 1.
    destruct (E + 1 <=? emax - prec) eqn:Hle.
    + split; [done|]. split.
      { unfold bounded, canonical_mantissa. rewrite Hle, fexp_eq.
        change (Z.pos (digits2_pos (2 ^ 52))) with 53.
        replace (Z.max (53 + (E + 1) - 53) (-1074) =? E + 1) with true; [done|].
        symmetry. apply Z.eqb_eq. lia. }
      split; [right; split; [done|split; [done|done]]|].
      intros Hl HEex. exfalso. specialize (Hexact Hl ltac:(lia)).
      assert (m1 = mx) as Hm1mx.
      { unfold m1. replace (E - ex) with 0 by lia.
        by rewrite Z.pow_0_r, Z.div_1_r. }
      lia.
    + apply Z.leb_gt in Hle. split; [done|]. change (emax - prec) with 971 in *. lia.
Qed.
End Rounding.

Section Normalize.
Local Open Scope Z_scope.

Lemma shl_align_spec mx ex ex' :
  (shl_align mx ex ex').2 = Z.min ex ex'
  ∧ Z.pos (shl_align mx ex ex').1 = Z.pos mx * 2 ^ (ex - Z.min ex ex').
Proof.
  unfold shl_align. destruct (ex' - ex) as [|d|d] eqn:Hd; cbn [fst snd].
  - rewrite Z.min_l by lia. rewrite Z.sub_diag. lia.
  - rewrite Z.min_l by lia. rewrite Z.sub_diag. lia.
  - rewrite Z.min_r by lia. split; [done|].
    change (Pos.iter xO mx d) with (shift_pos d mx).
    rewrite shift_pos_correct, Z.pow_pos_fold.
    replace (ex - ex') with (Z.pos d) by lia. lia.
Qed.

(** Rounding [mx * 2 ^ ex] to the format: the result is never a NaN, it has
    the sign asked for, it is a number of the format, and its mantissa at the
    exponent [E] of the format is the scaled [mx], rounded down or up. *)
Lemma binary_round_spec sx mx ex :
  let E := fexp prec emax (Z.pos (digits2_pos mx) + ex) in
  let m1 := if E <=? ex then Z.pos mx * 2 ^ (ex - E)
            else Z.pos mx / 2 ^ (E - ex) in
  match binary_round prec emax sx mx ex with
  | S754_nan => False
  | S754_zero s => s = sx ∧ m1 = 0
  | S754_infinity s => s = sx ∧ emax - prec ≤ E
  | S754_finite s m e =>
      s = sx
      ∧ bounded prec emax m e = true
      ∧ (e = E ∧ m1 ≤ Z.pos m ≤ m1 + 1
         ∨ e = E + 1 ∧ Z.pos m = 2 ^ 52 ∧ m1 + 1 = 2 ^ 53)
      ∧ (E ≤ ex → e = E ∧ Z.pos m = m1)
  end.
Proof.
  cbn zeta. set (E := fexp prec emax (Z.pos (digits2_pos mx) + ex)).
  unfold binary_round. fold E.
  destruct (shl_align_spec mx ex E) as [Hez Hmz].
  destruct (shl_align mx ex E) as [mz ez]. cbn [fst snd] in Hez, Hmz.
  assert (Zdigits2 (Z.pos mz) + ez = Z.pos (digits2_pos mx) + ex) as Hdig.
  { rewrite Hmz, Zdigits2_mul_pow2 by lia. cbn [Zdigits2]. lia. }
  pose proof (binary_round_aux_canonical sx (Z.pos mz) ez loc_Exact) as Hround.
  cbn zeta in Hround. rewrite Hdig in Hround. fold E in Hround.
  specialize (Hround ltac:(lia) ltac:(lia)).
  assert (Z.pos mz / 2 ^ (E - ez)
          = if E <=? ex then Z.pos mx * 2 ^ (ex - E)
            else Z.pos mx / 2 ^ (E - ex)) as Hm1.
  { destruct (E <=? ex) eqn:Hle.
    - apply Z.leb_le in Hle. rewrite Hmz, Hez, Z.min_r by lia.
      by rewrite Z.sub_diag, Z.pow_0_r, Z.div_1_r.
    - apply Z.leb_gt in Hle. rewrite Hmz, Hez, Z.min_l by lia.
      by rewrite Z.sub_diag, Z.pow_0_r, Z.mul_1_r. }
  rewrite Hm1 in Hround.
  destruct (binary_round_aux prec emax sx (Z.pos mz) ez loc_Exact)
    as [s|s| |s m e]; try done.
  destruct Hround as (Hs & Hb & Hm & Hexact).
  split; [done|]. split; [done|]. split; [done|].
  intros Hle. destruct Hexact as [-> ->]; [done|lia|].
  split; [lia|]. rewrite <- Hm1, Hez, Z.min_r by lia.
  by rewrite Z.sub_diag, Z.pow_0_r, Z.div_1_r.
Qed.

Lemma binary_normalize_valid z e s :
  valid_binary (binary_normalize prec emax z e s) = true.
Proof.
  destruct z as [|m|m]; cbn [binary_normalize]; [done| |].
  - pose proof (binary_round_spec false m e) as H.
    destruct (binary_round prec emax false m e); try done. by destruct H as (_ & ? & _).
  - pose proof (binary_round_spec true m e) as H.
    destruct (binary_round prec emax true m e); try done. by destruct H as (_ & ? & _).
Qed.

(** The binary64 number nearest to an integer: it has the sign of the
    integer, and it is zero only for 0. *)
Lemma binary_normalize_int z :
  match binary_normalize prec emax z 0 false with
  | S754_nan => False
  | S754_zero s => s = false ∧ z = 0
  | S754_infinity s => s = (z <? 0)
  | S754_finite s m e => s = (z <? 0)
  end.
Proof.
  destruct z as [|m|m]; cbn [binary_normalize]; [done| |].
  - pose proof (binary_round_spec false m 0) as H.
    destruct (binary_round prec emax false m 0) as [s|s| |s m' e]; try done;
      try (by destruct H as [-> _]).
    exfalso. destruct H as [_ H]. rewrite fexp_eq in H.
    pose proof (Zdigits2_bounds (Z.pos m) ltac:(lia)) as (Hd & Hlo & Hhi).
    cbn [Zdigits2] in *.
    rewrite Z.add_0_r, Z.max_l in H by lia.
    destruct (Z.pos (digits2_pos m) - 53 <=? 0) eqn:Hle.
    + assert (0 < 2 ^ (0 - (Z.pos (digits2_pos m) - 53)))
        by (apply Z.pow_pos_nonneg; lia). nia.
    + apply Z.leb_gt in Hle.
      pose proof (Zdigits2_div_pow2 (Z.pos m) (Z.pos (digits2_pos m) - 53 - 0)
                    ltac:(lia) ltac:(lia)) as Hdig.
      rewrite H in Hdig. cbn [Zdigits2] in Hdig. lia.
  - pose proof (binary_round_spec true m 0) as H.
    destruct (binary_round prec emax true m 0) as [s|s| |s m' e]; try done;
      try (by destruct H as [-> _]).
    exfalso. destruct H as [_ H]. rewrite fexp_eq in H.
    pose proof (Zdigits2_bounds (Z.pos m) ltac:(lia)) as (Hd & Hlo & Hhi).
    cbn [Zdigits2] in *.
    rewrite Z.add_0_r, Z.max_l in H by lia.
    destruct (Z.pos (digits2_pos m) - 53 <=? 0) eqn:Hle.
    + assert (0 < 2 ^ (0 - (Z.pos (digits2_pos m) - 53)))
        by (apply Z.pow_pos_nonneg; lia). nia.
    + apply Z.leb_gt in Hle.
      pose proof (Zdigits2_div_pow2 (Z.pos m) (Z.pos (digits2_pos m) - 53 - 0)
                    ltac:(lia) ltac:(lia)) as Hdig.
      rewrite H in Hdig. cbn [Zdigits2] in Hdig. lia.
Qed.

Lemma binary_round_aux_sign sx mx ex lx :
  0 ≤ mx →
  match binary_round_aux prec emax sx mx ex lx with
  | S754_nan => False
  | S754_zero s | S754_infinity s | S754_finite s _ _ => s = sx
  end.
Proof.
  intros Hmx.
  destruct (binary_round_aux_eq sx mx ex lx Hmx) as (m2 & Hm2 & _ & ->).
  cbn zeta in *.
  set (n1 := Z.max 0 _) in *. set (n2 := Z.max 0 _).
  assert (0 ≤ mx / 2 ^ n1)
    by (apply Z.div_pos; [done|apply Z.pow_pos_nonneg; lia]).
  assert (0 ≤ m2 / 2 ^ n2)
    by (apply Z.div_pos; [lia|apply Z.pow_pos_nonneg; lia]).
  destruct (m2 / 2 ^ n2); [done| |lia].
  by destruct (_ <=? _).
Qed.
End Normalize.

(** ** Binary64: signs and order of the results of the operations *)

Section Operations.
Local Open Scope Z_scope.

Lemma SFdiv_core_binary_nonneg m1 e1 m2 e2 :
  0 ≤ (SFdiv_core_binary prec emax (Z.pos m1) e1 (Z.pos m2) e2).1.1.
Proof.
  unfold SFdiv_core_binary.
  set (s := _ - _ - Z.min _ _).
  set (m' := match s with 0 => Z.pos m1 | Z.pos _ => Z.shiftl (Z.pos m1) s
             | Z.neg _ => 0 end).
  assert (0 ≤ m') as Hm'.
  { unfold m'. destruct s; [lia| |lia]. by apply Z.shiftl_nonneg. }
  pose proof (Z_div_mod m' (Z.pos m2) ltac:(lia)) as Hdiv.
  destruct (Z.div_eucl m' (Z.pos m2)) as [q r]. cbn [fst]. nia.
Qed.

(** A quotient of a non-negative by a positive number is non-negative. *)
Lemma SFdiv_nonneg x y :
  sf_nonneg x = true → sf_pos y = true → sf_fin x || sf_fin y = true →
  sf_nonneg (SF64div x y) = true.
Proof.
  destruct x as [sx|[]| |[] mx ex], y as [sy|[]| |[] my ey];
    intros Hx Hy Hf; try discriminate; try reflexivity.
  unfold SF64div, SFdiv.
  pose proof (SFdiv_core_binary_nonneg mx ex my ey) as Hq.
  destruct (SFdiv_core_binary prec emax (Z.pos mx) ex (Z.pos my) ey)
    as [[mz ez] lz]. cbn [fst] in Hq.
  pose proof (binary_round_aux_sign (xorb false false) mz ez lz Hq) as Hs.
  by destruct (binary_round_aux _ _ _ _ _ _) as [s|s| |s m e];
    cbn in Hs; subst.
Qed.

Lemma binary_normalize_nonneg z e :
  0 ≤ z → sf_nonneg (binary_normalize prec emax z e false) = true.
Proof.
  destruct z as [|m|m]; [done| |lia]. intros _. cbn [binary_normalize].
  pose proof (binary_round_spec false m e) as Hs.
  destruct (binary_round prec emax false m e) as [s|s| |s m' e']; try done;
    by destruct Hs as [-> _].
Qed.

(** A sum of two non-negative numbers is non-negative. *)
Lemma SFadd_nonneg x y :
  sf_nonneg x = true → sf_nonneg y = true → sf_nonneg (SF64add x y) = true.
Proof.
  destruct x as [[]|[]| |[] mx ex], y as [[]|[]| |[] my ey];
    intros Hx Hy; try discriminate; try reflexivity.
  unfold SF64add, SFadd. apply binary_normalize_nonneg.
  cbn [cond_Zopp]. lia.
Qed.

Lemma bounded_canonical m e :
  bounded prec emax m e = true →
  Z.max (Z.pos (digits2_pos m) + e - 53) (-1074) = e ∧ e ≤ 971.
Proof.
  unfold bounded, canonical_mantissa. rewrite fexp_eq.
  intros [Hc He]%andb_true_iff. apply Z.eqb_eq in Hc. apply Z.leb_le in He.
  done.
Qed.

Lemma pow2_digits_le (m : positive) n :
  Z.pos (digits2_pos m) ≤ n → Z.pos m < 2 ^ n.
Proof.
  intros Hn. destruct (Zdigits2_bounds (Z.pos m) ltac:(lia)) as (_ & _ & Hhi).
  cbn [Zdigits2] in Hhi. eapply Z.lt_le_trans; [exact Hhi|].
  apply Z.pow_le_mono_r; lia.
Qed.

Lemma digits_le_pow2 m n : 0 < m → 0 ≤ n → m < 2 ^ n → Zdigits2 m ≤ n.
Proof.
  intros Hm Hn Hlt. destruct (Zdigits2_bounds m Hm) as (Hd & Hlo & _).
  destruct (Z_le_gt_dec (Zdigits2 m) n) as [|Hgt]; [done|].
  assert (2 ^ n ≤ 2 ^ (Zdigits2 m - 1)) by (apply Z.pow_le_mono_r; lia). lia.
Qed.

(** The number one, as [Prim2SF] gives it. *)
Lemma Prim2SF_one : Prim2SF 1 = S754_finite false 4503599627370496 (-52).
Proof. reflexivity. Qed.

(** [1 - x] for [0 <= x < 1] is a non-negative number. *)
Lemma SFsub_one x :
  valid_binary x = true → sf_nonneg x = true →
  SFltb x (S754_finite false 4503599627370496 (-52)) = true →
  sf_nonneg (SF64sub (S754_finite false 4503599627370496 (-52)) x) = true
  ∧ sf_fin (SF64sub (S754_finite false 4503599627370496 (-52)) x) = true.
Proof.
  destruct x as [sx|[]| |[] mx ex]; try done.
  intros [Hcanon _]%bounded_canonical _ (_ & _ & Hlt)%SFltb_key.
  unfold key_lt in Hlt. cbn [sf_key fst snd] in Hlt.
  assert (ex ≤ -52 ∧ Z.pos mx < 2 ^ (- ex)) as [Hex Hmx].
  { destruct Hlt as [?|[_ [Hlt|[-> Hlt]]]]; [lia| |].
    - split; [lia|]. apply pow2_digits_le. lia.
    - split; [lia|]. exact Hlt. }
  unfold SF64sub, SFsub. cbn [cond_Zopp]. rewrite (Z.min_r (-52) ex) by lia.
  destruct (shl_align_spec 4503599627370496 (-52) ex) as [_ H1].
  destruct (shl_align_spec mx ex ex) as [_ H2].
  rewrite Z.min_r in H1 by lia. rewrite Z.min_r, Z.sub_diag in H2 by lia.
  set (m1 := (shl_align 4503599627370496 (-52) ex).1) in *.
  set (m2 := (shl_align mx ex ex).1) in *.
  assert (Z.pos m1 = 2 ^ (- ex)) as Hm1.
  { rewrite H1. change (Z.pos 4503599627370496) with (2 ^ 52).
    rewrite <- Z.pow_add_r by lia. f_equal. lia. }
  assert (Z.pos m2 = Z.pos mx) as Hm2 by lia.
  destruct (Z.pos m1 - Z.pos m2) as [|d|d] eqn:Hd; [lia| |lia].
  cbn [binary_normalize].
  pose proof (binary_round_spec false d ex) as Hs. cbn zeta in Hs.
  assert (Z.pos (digits2_pos d) ≤ - ex) as Hdd.
  { apply (digits_le_pow2 (Z.pos d)); lia. }
  rewrite fexp_eq in Hs.
  destruct (binary_round prec emax false d ex) as [s|s| |s m e]; try done.
  - destruct Hs as [_ Hs]. change (emax - prec) with 971 in Hs. lia.
  - by destruct Hs as [-> _].
Qed.

(** Adding a non-negative number does not decrease a non-negative number. *)
Lemma SFadd_le x y :
  valid_binary x = true → sf_nonneg x = true → sf_nonneg y = true →
  SFleb x (SF64add x y) = true.
Proof.
  destruct x as [[]|[]| |[] mx ex], y as [[]|[]| |[] my ey]; try done;
    try (intros _ _ _; unfold SFleb; cbn [SF64add SFadd SFcompare];
         change (Pos.compare_cont Eq mx mx) with (Pos.compare mx mx);
         by rewrite ?Z.compare_refl, ?Pos.compare_refl).
  intros [Hcanon _]%bounded_canonical _ _.
  unfold SF64add, SFadd. cbn [cond_Zopp binary_normalize Z.add].
  set (ez := Z.min ex ey).
  destruct (shl_align_spec mx ex ez) as [_ H1].
  destruct (shl_align_spec my ey ez) as [_ H2].
  rewrite (Z.min_r ex ez) in H1 by lia.
  set (m1 := (shl_align mx ex ez).1) in *.
  set (m2 := (shl_align my ey ez).1) in *.
  set (mS := (m1 + m2)%positive).
  change (binary_normalize prec emax (Z.pos m1 + Z.pos m2) ez false)
    with (binary_round prec emax false mS ez).
  assert (Z.pos mx * 2 ^ (ex - ez) ≤ Z.pos mS) as HS by lia.
  assert (0 < 2 ^ (ex - ez)) as Hpow by (apply Z.pow_pos_nonneg; lia).
  assert (Z.pos (digits2_pos mx) + ex ≤ Z.pos (digits2_pos mS) + ez) as Hdig.
  { pose proof (Zdigits2_le (Z.pos mx * 2 ^ (ex - ez)) (Z.pos mS)
                  ltac:(lia) HS) as Hle.
    rewrite Zdigits2_mul_pow2 in Hle by lia. cbn [Zdigits2] in Hle. lia. }
  pose proof (binary_round_spec false mS ez) as Hs. cbn zeta in Hs.
  rewrite fexp_eq in Hs.
  set (E := Z.max (Z.pos (digits2_pos mS) + ez - 53) (-1074)) in *.
  assert (ex ≤ E) as HE by lia.
  apply SFleb_key.
  destruct (binary_round prec emax false mS ez) as [s|s| |s m e]; try done.
  - exfalso. destruct Hs as [_ Hs].
    destruct (E <=? ez) eqn:Hle; [nia|]. apply Z.leb_gt in Hle.
    pose proof (Zdigits2_div_pow2 (Z.pos mS) (E - ez) ltac:(lia) ltac:(lia))
      as Hd. rewrite Hs in Hd. cbn [Zdigits2] in Hd. lia.
  - destruct Hs as [-> _]. split; [done|]. split; [done|].
    unfold key_le. cbn [sf_key fst snd]. lia.
  - destruct Hs as (-> & _ & Hm & _). split; [done|]. split; [done|].
    unfold key_le. cbn [sf_key fst snd]. right. split; [done|].
    destruct Hm as [[-> Hm]|[-> _]]; [|lia].
    destruct (Z.eq_dec ex E) as [Heq|Hne]; [|lia]. right. split; [done|].
    destruct (E <=? ez) eqn:Hle.
    + apply Z.leb_le in Hle. replace (ez - E) with 0 in Hm by lia.
      replace (ex - ez) with 0 in HS by lia. lia.
    + apply Z.leb_gt in Hle.
      assert (Z.pos mx ≤ Z.pos mS / 2 ^ (E - ez)); [|lia].
      apply Z.div_le_lower_bound; [apply Z.pow_pos_nonneg; lia|].
      rewrite <- Heq. lia.
Qed.
End Operations.

(** ** The first tuple after [sort(reverse=True)]

    The sort only asks [<] on tuples, so what it leaves first depends on
    the comparisons of the arithmetic.  Whenever [==] and [<] are those of a
    preorder [le] that is total on the values that are [==] to themselves,
    the first tuple carries a greatest payoff. *)

Section SortedHead.
Context {num : Type} {arith : Arith num}.
Variable le : num → num → Prop.
Hypothesis le_trans : ∀ x y z, le x y → le y z → le x z.
Hypothesis le_refl : ∀ x, feqb x x = true → le x x.
Hypothesis le_eqb : ∀ x y, feqb x y = true → le x y ∧ le y x.
Hypothesis le_ltb : ∀ x y, fltb x y = true → le x y.
Hypothesis le_total :
  ∀ x y, feqb x x = true → feqb y y = true →
         feqb x y = false → fltb x y = false → le y x.

Local Abbreviation ok := (λ x : num * string, feqb x.1 x.1 = true).
Local Abbreviation payoff_le := (λ x y : num * string, le x.1 y.1).

Lemma tuple_lt_true (x y : num * string) :
  tuple_lt x y = true → le x.1 y.1.
Proof using le_eqb le_ltb.
  unfold tuple_lt. destruct (feqb x.1 y.1) eqn:Heq.
  - intros _. by destruct (le_eqb _ _ Heq).
  - apply le_ltb.
Qed.

Lemma tuple_lt_false (x y : num * string) :
  ok x → ok y → tuple_lt x y = false → le y.1 x.1.
Proof using le_eqb le_total.
  unfold tuple_lt. intros Hx Hy. destruct (feqb x.1 y.1) eqn:Heq.
  - intros _. by destruct (le_eqb _ _ Heq).
  - by apply le_total.
Qed.

Lemma insort_HdRel (x y : num * string) l :
  le y.1 x.1 → HdRel payoff_le y l → HdRel payoff_le y (insort x l).
Proof.
  intros Hyx Hhd. destruct l as [|z l]; simpl; [by constructor|].
  apply HdRel_inv in Hhd. destruct (tuple_lt x z); by constructor.
Qed.

Lemma insort_sorted (x : num * string) l :
  ok x → Forall ok l → Sorted payoff_le l → Sorted payoff_le (insort x l).
Proof using le_eqb le_ltb le_total.
  intros Hx. induction l as [|y l IH]; simpl; intros Hl Hs;
    [by repeat constructor|].
  apply Forall_cons in Hl as [Hy Hl].
  destruct (tuple_lt x y) eqn:Hlt.
  - constructor; [done|]. constructor. by apply tuple_lt_true.
  - apply Sorted_inv in Hs as [Hs Hhd]. constructor; [by apply IH|].
    apply insort_HdRel; [|done]. by apply tuple_lt_false.
Qed.

Lemma sort_sorted (l : list (num * string)) :
  Forall ok l → Sorted payoff_le (sort l).
Proof using le_eqb le_ltb le_total.
  unfold sort.
  enough (∀ acc, Forall ok acc → Sorted payoff_le acc → Forall ok l →
                 Sorted payoff_le (foldl (λ acc x, insort x acc) acc l))
    as Hgen by (apply Hgen; constructor).
  induction l as [|x l IH]; intros acc Hok Hacc Hl; simpl; [done|].
  apply Forall_cons in Hl as [Hx Hl].
  apply IH; [|by apply insort_sorted|done].
  rewrite insort_perm. by constructor.
Qed.

Lemma sorted_last_max (l : list (num * string)) b :
  ok b → Sorted payoff_le (l ++ [b]) → ∀ x, x ∈ l ++ [b] → le x.1 b.1.
Proof using le_trans le_refl.
  intros Hb Hs%Sorted_StronglySorted; [|intros x y z; apply le_trans].
  induction l as [|y l IH]; simpl in *; intros x Hx.
  - apply list_elem_of_singleton in Hx as ->. by apply le_refl.
  - apply StronglySorted_inv in Hs as [Hs Hall].
    apply elem_of_cons in Hx as [->|Hx]; [|by apply IH].
    rewrite List.Forall_forall in Hall. apply Hall, in_or_app. right. by left.
Qed.

(** After [sort(reverse=True)] the first tuple carries a greatest payoff. *)
Lemma sort_reverse_head_max (l : list (num * string)) best name rest :
  Forall ok l →
  sort_reverse l = (best, name) :: rest →
  ∀ p k, (p, k) ∈ l → le p best.
Proof using le_trans le_refl le_eqb le_ltb le_total.
  unfold sort_reverse. intros Hok Hrev p k Hin.
  assert (sort (rev l) = rev rest ++ [(best, name)]) as Hsort.
  { rewrite <- (rev_involutive (sort (rev l))), Hrev. done. }
  assert (Forall ok (rev l)) as Hokrev by (by rewrite <- Permutation_rev).
  apply (sorted_last_max (rev rest) (best, name)) with (x := (p, k)).
  - assert ((best, name) ∈ rev l) as Hb.
    { rewrite <- (sort_perm (rev l)), Hsort. apply elem_of_app. right. by left. }
    rewrite Forall_forall in Hokrev. by apply (Hokrev _ Hb).
  - rewrite <- Hsort. by apply sort_sorted.
  - rewrite <- Hsort, sort_perm, <- Permutation_rev. done.
Qed.
End SortedHead.

(** ** Binary64: the comparisons and the conversion, on [float] *)

Section Binary64Order.
Implicit Types x y z : float.

Lemma eqb_key x y :
  PrimFloat.eqb x y = true
  ↔ sf_nan (Prim2SF x) = false ∧ sf_nan (Prim2SF y) = false
    ∧ sf_key (Prim2SF x) = sf_key (Prim2SF y).
Proof. rewrite FloatAxioms.eqb_spec. apply SFeqb_key. Qed.

Lemma ltb_key x y :
  PrimFloat.ltb x y = true
  ↔ sf_nan (Prim2SF x) = false ∧ sf_nan (Prim2SF y) = false
    ∧ key_lt (sf_key (Prim2SF x)) (sf_key (Prim2SF y)).
Proof. rewrite FloatAxioms.ltb_spec. apply SFltb_key. Qed.

Lemma leb_key x y :
  PrimFloat.leb x y = true
  ↔ sf_nan (Prim2SF x) = false ∧ sf_nan (Prim2SF y) = false
    ∧ key_le (sf_key (Prim2SF x)) (sf_key (Prim2SF y)).
Proof. rewrite FloatAxioms.leb_spec. apply SFleb_key. Qed.

Lemma eqb_refl_nan x :
  PrimFloat.eqb x x = true ↔ sf_nan (Prim2SF x) = false.
Proof. rewrite eqb_key. split; [by intros (? & _)|by intros ?]. Qed.

Lemma leb_trans x y z :
  PrimFloat.leb x y = true → PrimFloat.leb y z = true →
  PrimFloat.leb x z = true.
Proof.
  rewrite !leb_key. unfold key_le.
  intros (? & ? & ?) (? & ? & ?). split; [done|]. split; [done|]. lia.
Qed.

Lemma leb_refl x : PrimFloat.eqb x x = true → PrimFloat.leb x x = true.
Proof. rewrite eqb_refl_nan, leb_key. unfold key_le. intros ?. repeat split; try done. lia. Qed.

Lemma leb_eqb x y :
  PrimFloat.eqb x y = true →
  PrimFloat.leb x y = true ∧ PrimFloat.leb y x = true.
Proof.
  rewrite eqb_key, !leb_key. unfold key_le. intros (? & ? & ->).
  repeat split; try done; lia.
Qed.

Lemma leb_ltb x y : PrimFloat.ltb x y = true → PrimFloat.leb x y = true.
Proof.
  rewrite ltb_key, leb_key. unfold key_lt, key_le. intros (? & ? & ?).
  repeat split; try done; lia.
Qed.

Lemma key_eq_dec (k1 k2 : Z * Z * Z) :
  k1 = k2 ∨ key_lt k1 k2 ∨ key_lt k2 k1.
Proof.
  destruct k1 as [[c1 e1] m1], k2 as [[c2 e2] m2]. unfold key_lt.
  cbn [fst snd].
  destruct (Z.eq_dec c1 c2) as [->|]; [|lia].
  destruct (Z.eq_dec e1 e2) as [->|]; [|lia].
  destruct (Z.eq_dec m1 m2) as [->|]; [by left|lia].
Qed.

Lemma leb_total x y :
  PrimFloat.eqb x x = true → PrimFloat.eqb y y = true →
  PrimFloat.eqb x y = false → PrimFloat.ltb x y = false →
  PrimFloat.leb y x = true.
Proof.
  rewrite !eqb_refl_nan. intros Hx Hy Heq Hlt. apply leb_key.
  split; [done|]. split; [done|].
  destruct (key_eq_dec (sf_key (Prim2SF x)) (sf_key (Prim2SF y)))
    as [Hk|[Hk|Hk]].
  - exfalso. apply not_true_iff_false in Heq. apply Heq, eqb_key. done.
  - exfalso. apply not_true_iff_false in Hlt. apply Hlt, ltb_key. done.
  - unfold key_lt, key_le in *. lia.
Qed.

Lemma leb_antisym x y :
  PrimFloat.leb x y = true → PrimFloat.leb y x = true →
  PrimFloat.eqb x y = true.
Proof.
  rewrite !leb_key, eqb_key. unfold key_le. intros (? & ? & Hxy) (_ & _ & Hyx).
  split; [done|]. split; [done|].
  destruct (sf_key (Prim2SF x)) as [[c1 e1] m1],
           (sf_key (Prim2SF y)) as [[c2 e2] m2].
  cbn [fst snd] in *. f_equal; [f_equal|]; lia.
Qed.

(** Values that are [==] compare alike with any third value. *)
Lemma eqb_eqb x y z :
  PrimFloat.eqb x y = true → PrimFloat.eqb x z = PrimFloat.eqb y z.
Proof.
  intros (Hx & Hy & Hk)%eqb_key.
  destruct (PrimFloat.eqb y z) eqn:Hyz.
  - apply eqb_key in Hyz as (_ & Hz & Hk'). apply eqb_key.
    split; [done|]. split; [done|]. congruence.
  - apply not_true_iff_false. intros (_ & Hz & Hk')%eqb_key.
    apply not_true_iff_false in Hyz. apply Hyz, eqb_key.
    split; [done|]. split; [done|]. congruence.
Qed.

Lemma leb_zero x :
  PrimFloat.leb 0 x = true ↔ sf_nonneg (Prim2SF x) = true.
Proof.
  rewrite FloatAxioms.leb_spec. change (Prim2SF 0) with (S754_zero false).
  by destruct (Prim2SF x) as [[]|[]| |[] m e].
Qed.

(** *** The conversion of integers *)

Lemma Prim2SF_float_of_int (n : Z) :
  Prim2SF (Binary64.float_of_int n) = binary_normalize prec emax n 0 false.
Proof. apply Prim2SF_SF2Prim, binary_normalize_valid. Qed.

(** An integer that does not overflow becomes a zero or a number. *)
Lemma float_of_int_fin (n : Z) :
  Binary64.int_overflows n = false →
  sf_fin (Prim2SF (Binary64.float_of_int n)) = true.
Proof.
  unfold Binary64.int_overflows. rewrite FloatAxioms.eqb_spec, FloatAxioms.abs_spec.
  rewrite Prim2SF_float_of_int.
  pose proof (binary_normalize_int n) as Hn.
  by destruct (binary_normalize prec emax n 0 false) as [s|s| |s m e].
Qed.

(** A positive integer becomes a positive number or [+infinity]. *)
Lemma float_of_int_pos (n : Z) :
  (0 < n)%Z → sf_pos (Prim2SF (Binary64.float_of_int n)) = true.
Proof.
  intros Hn. rewrite Prim2SF_float_of_int.
  pose proof (binary_normalize_int n) as Hs.
  destruct (binary_normalize prec emax n 0 false) as [s|s| |s m e];
    [lia| | |]; try done.
  - subst s. by rewrite (proj2 (Z.ltb_ge n 0)) by lia.
  - subst s. by rewrite (proj2 (Z.ltb_ge n 0)) by lia.
Qed.

(** A quotient of a number by a positive number is not a NaN. *)
Lemma SFdiv_fin_nonnan (x y : spec_float) :
  sf_fin x = true → sf_fin y = true → sf_pos y = true →
  sf_nan (SF64div x y) = false.
Proof.
  destruct x as [sx|sx| |sx mx ex], y as [sy|sy| |[] my ey];
    intros Hx Hy Hp; try discriminate; try reflexivity.
  unfold SF64div, SFdiv.
  pose proof (SFdiv_core_binary_nonneg mx ex my ey) as Hq.
  destruct (SFdiv_core_binary prec emax (Z.pos mx) ex (Z.pos my) ey)
    as [[mz ez] lz]. cbn [fst] in Hq.
  pose proof (binary_round_aux_sign (xorb sx false) mz ez lz Hq) as Hs.
  by destruct (binary_round_aux _ _ _ _ _ _) as [s|s| |s m e].
Qed.

(** The average payoff of line 72 is never a NaN. *)
Lemma avg_payoff_nonnan (a : SampleArm) (p : float) :
  avg_payoff a = inr p → PrimFloat.eqb p p = true.
Proof.
  intros [Hrange ->]%avg_payoff_inr. unfold arm_in_range in Hrange.
  destruct (0 <? total a)%Z eqn:Htotal; [|done].
  cbn [negb orb] in Hrange.
  apply andb_true_iff in Hrange as [H1%negb_true_iff H2%negb_true_iff].
  apply Z.ltb_lt in Htotal.
  apply eqb_refl_nan. cbn [fdiv of_int Binary64.arith]. rewrite FloatAxioms.div_spec.
  apply SFdiv_fin_nonnan.
  - by apply float_of_int_fin.
  - by apply float_of_int_fin.
  - by apply float_of_int_pos.
Qed.
End Binary64Order.

(** ** The allocation in binary64 *)

Section Binary64Policy.
Variable self : EpsilonGreedy float.
Abbreviation arms := (arms_sampled (_historical_info self)).
Abbreviation epsilon := (_epsilon self).
Abbreviation n := (num_arms (_historical_info self)).

Lemma payoff_name_list_nonnan (l : list (float * string)) :
  payoff_name_list arms = inr l →
  Forall (λ x : float * string, PrimFloat.eqb x.1 x.1 = true) l.
Proof.
  intros Hl. apply Forall_forall. intros [p k] Hin.
  apply (elem_of_payoff_name_list _ _ _ _ Hl) in Hin as (a & _ & Hp).
  by eapply avg_payoff_nonnan.
Qed.

(** The method in binary64, once the loop of lines 71-73 has ended: it
    returns, the payoff it takes as the best is the payoff of an arm and is
    at least every payoff, and every arm gets its closed-form allocation. *)
Lemma allocate_arms_max (l : list (float * string)) :
  arms ≠ ∅ →
  payoff_name_list arms = inr l →
  ∃ (m : gmap string float) (best : float),
    allocate_arms self = inr m
    ∧ dom m = dom arms
    ∧ (∃ name a, arms !! name = Some a ∧ avg_payoff a = inr best)
    ∧ (∀ name a p, arms !! name = Some a → avg_payoff a = inr p →
         PrimFloat.leb p best = true)
    ∧ 1 ≤ length (arms_with_payoff best arms)
    ∧ ∀ name a p, arms !! name = Some a → avg_payoff a = inr p →
        m !! name
        = Some (allocation epsilon n (length (arms_with_payoff best arms))
                  best p).
Proof.
  intros Hne Hl.
  pose proof (sort_reverse_perm l) as Hperm.
  destruct (sort_reverse l) as [|[best name] rest] eqn:Hsorted.
  { apply Permutation_nil_l in Hperm. subst l.
    by apply payoff_name_list_nil in Hl. }
  assert ((best, name) ∈ l) as Hin by (rewrite <- Hperm; by left).
  apply (elem_of_payoff_name_list _ _ _ _ Hl) in Hin as (a0 & Ha0 & Hbest).
  destruct (allocate_arms_sorted self l best name rest Hl Hsorted)
    as (m & Hm & Hdom & Hk & Hlookup); [by eapply avg_payoff_nonnan|].
  exists m, best. split; [done|]. split; [done|].
  split; [by exists name, a0|]. split; [|done].
  intros k a p Ha Hp.
  apply (sort_reverse_head_max (arith := Binary64.arith)
           (λ x y, PrimFloat.leb x y = true)
           leb_trans leb_refl leb_eqb leb_ltb leb_total
           l best name rest (payoff_name_list_nonnan l Hl) Hsorted p k).
  apply (elem_of_payoff_name_list _ _ _ _ Hl). by exists a.
Qed.

Lemma allocate_arms_inr_max (m : gmap string float) :
  allocate_arms self = inr m →
  ∃ best : float,
    (∃ name a, arms !! name = Some a ∧ avg_payoff a = inr best)
    ∧ (∀ name a p, arms !! name = Some a → avg_payoff a = inr p →
         PrimFloat.leb p best = true)
    ∧ 1 ≤ length (arms_with_payoff best arms)
    ∧ ∀ name a p, arms !! name = Some a → avg_payoff a = inr p →
        m !! name
        = Some (allocation epsilon n (length (arms_with_payoff best arms))
                  best p).
Proof.
  intros Hm. destruct (allocate_arms_inr_list self m Hm) as [Hne [l Hl]].
  destruct (allocate_arms_max l Hne Hl) as (m' & best & Hm' & _ & H).
  assert (m' = m) as -> by congruence. by exists best.
Qed.

(** C1 (amended): on a non-empty [historical_info] whose counts are inside
    the float64 range, for any epsilon, the method returns a mapping; the
    average payoff of an arm is the float64 quotient
    float64(win - loss) / total when total > 0, and 0 otherwise; the best
    payoff is the payoff of an arm and is at least every payoff; an arm
    whose payoff [==] the best payoff gets
    epsilon / num_arms + (1 - epsilon) / num_winning_arms, any other arm
    gets epsilon / num_arms, all in float64 arithmetic, where
    num_winning_arms counts the arms whose payoff [==] the best payoff. *)
Theorem allocate_arms_closed_form :
  arms ≠ ∅ → in_range arms = true →
  ∃ (m : gmap string float) (best : float),
    allocate_arms self = inr m
    ∧ (∃ name a, arms !! name = Some a ∧ avg_payoff a = inr best)
    ∧ (∀ name a p, arms !! name = Some a → avg_payoff a = inr p →
         PrimFloat.leb p best = true)
    ∧ ∀ name a, arms !! name = Some a →
        ∃ p : float,
          avg_payoff a = inr p
          ∧ p = (if (0 <? total a)%Z
                 then Binary64.float_of_int (win a - loss a)
                      / Binary64.float_of_int (total a)
                 else 0)%float
          ∧ m !! name
            = Some (if PrimFloat.eqb p best
                    then (epsilon / Binary64.float_of_int (Z.of_nat n)
                          + (1 - epsilon)
                            / Binary64.float_of_int
                                (Z.of_nat (length (arms_with_payoff best arms))))
                    else epsilon / Binary64.float_of_int (Z.of_nat n))%float.
Proof.
  intros Hne Hrange.
  destruct (in_range_payoff_name_list arms Hrange) as [l Hl].
  destruct (allocate_arms_max l Hne Hl)
    as (m & best & Hm & _ & Hbest & Hupper & _ & Hlookup).
  exists m, best. split; [done|]. split; [done|]. split; [done|].
  intros name a Ha.
  assert (arm_in_range (num := float) a = true) as Ha_range
    by (by eapply in_range_lookup).
  eexists. split; [by apply avg_payoff_inr|]. split; [done|].
  erewrite Hlookup; [done|done|by apply avg_payoff_inr].
Qed.


(** *** Signs *)

Lemma epsilon_fin (eps : float) :
  PrimFloat.leb 0 eps = true → PrimFloat.ltb eps 1 = true →
  sf_fin (Prim2SF eps) = true.
Proof.
  rewrite leb_zero, FloatAxioms.ltb_spec, Prim2SF_one.
  by destruct (Prim2SF eps) as [[]|[]| |[] m e].
Qed.

(** For 0 <= epsilon < 1 and a count of at least one, the baseline share
    epsilon / count is not negative. *)
Lemma baseline_nonneg (eps : float) (c : nat) :
  PrimFloat.leb 0 eps = true → PrimFloat.ltb eps 1 = true → 1 ≤ c →
  sf_nonneg (Prim2SF (eps / Binary64.float_of_int (Z.of_nat c))) = true.
Proof.
  intros H0 H1 Hc. rewrite FloatAxioms.div_spec.
  apply SFdiv_nonneg; [by apply leb_zero|apply float_of_int_pos; lia|].
  by rewrite epsilon_fin.
Qed.

(** For 0 <= epsilon < 1 and a count of at least one, the winners' share
    (1 - epsilon) / count is not negative. *)
Lemma winners_share_nonneg (eps : float) (c : nat) :
  PrimFloat.leb 0 eps = true → PrimFloat.ltb eps 1 = true → 1 ≤ c →
  sf_nonneg (Prim2SF ((1 - eps) / Binary64.float_of_int (Z.of_nat c))) = true.
Proof.
  intros H0%leb_zero H1 Hc.
  rewrite FloatAxioms.ltb_spec, Prim2SF_one in H1.
  destruct (SFsub_one (Prim2SF eps) (Prim2SF_valid eps) H0 H1)
    as [Hnonneg Hfin].
  rewrite FloatAxioms.div_spec, FloatAxioms.sub_spec, Prim2SF_one.
  apply SFdiv_nonneg; [done|apply float_of_int_pos; lia|].
  by rewrite Hfin.
Qed.

(** For 0 <= epsilon < 1 both values of a returned mapping are not
    negative, and the value of the winners is at least the other. *)
Lemma allocation_values (eps : float) (c k : nat) :
  PrimFloat.leb 0 eps = true → PrimFloat.ltb eps 1 = true →
  1 ≤ c → 1 ≤ k →
  PrimFloat.leb 0 (eps / Binary64.float_of_int (Z.of_nat c)) = true
  ∧ PrimFloat.leb 0 (eps / Binary64.float_of_int (Z.of_nat c)
                     + (1 - eps) / Binary64.float_of_int (Z.of_nat k)) = true
  ∧ PrimFloat.leb (eps / Binary64.float_of_int (Z.of_nat c))
      (eps / Binary64.float_of_int (Z.of_nat c)
       + (1 - eps) / Binary64.float_of_int (Z.of_nat k)) = true.
Proof.
  intros H0 H1 Hc Hk.
  pose proof (baseline_nonneg eps c H0 H1 Hc) as Hb.
  pose proof (winners_share_nonneg eps k H0 H1 Hk) as Hw.
  split; [by apply leb_zero|]. split.
  - apply leb_zero. rewrite FloatAxioms.add_spec. by apply SFadd_nonneg.
  - rewrite FloatAxioms.leb_spec, FloatAxioms.add_spec.
    apply SFadd_le; [apply Prim2SF_valid|done|done].
Qed.

(** C5: for epsilon in [0, 1), every value of a mapping returned by the
    method is at least 0, in binary64. *)
Theorem allocations_nonneg (m : gmap string float) :
  PrimFloat.leb 0 epsilon = true → PrimFloat.ltb epsilon 1 = true →
  allocate_arms self = inr m →
  ∀ name v, m !! name = Some v → PrimFloat.leb 0 v = true.
Proof.
  intros H0 H1 (ws & _ & _ & Hk & Hn & Hlookup)%allocate_arms_inr name v.
  rewrite Hlookup. destruct (arms !! name) as [a|]; [|done].
  destruct (allocation_values epsilon n (length ws) H0 H1 Hn Hk)
    as (Hb & Hbw & _).
  intros [= <-]. by destruct (decide (name ∈ ws)).
Qed.

(** C10 (amended): for epsilon in [0, 1), in a mapping returned by the
    method, two arms whose float64 average payoffs are [==] get the same
    allocation, and an arm whose float64 average payoff is at least
    another's gets at least its allocation. *)
Theorem allocation_monotone (m : gmap string float) :
  PrimFloat.leb 0 epsilon = true → PrimFloat.ltb epsilon 1 = true →
  allocate_arms self = inr m →
  ∀ name1 a1 p1 name2 a2 p2,
    arms !! name1 = Some a1 → avg_payoff a1 = inr p1 →
    arms !! name2 = Some a2 → avg_payoff a2 = inr p2 →
    ∃ v1 v2 : float,
      m !! name1 = Some v1 ∧ m !! name2 = Some v2
      ∧ (PrimFloat.eqb p1 p2 = true → v1 = v2)
      ∧ (PrimFloat.leb p2 p1 = true → PrimFloat.leb v2 v1 = true).
Proof.
  intros H0 H1 Hm name1 a1 p1 name2 a2 p2 Ha1 Hp1 Ha2 Hp2.
  destruct (allocate_arms_inr_max m Hm)
    as (best & _ & Hupper & Hk & Hlookup).
  destruct (allocate_arms_inr self m Hm) as (_ & _ & _ & _ & Hn & _).
  destruct (allocation_values epsilon n
              (length (arms_with_payoff best arms)) H0 H1 Hn Hk)
    as (Hb & Hbw & Hle).
  exists (allocation epsilon n (length (arms_with_payoff best arms)) best p1),
         (allocation epsilon n (length (arms_with_payoff best arms)) best p2).
  split; [by eapply Hlookup|]. split; [by eapply Hlookup|].
  unfold allocation. cbn [feqb fadd fsub fdiv of_int Binary64.arith].
  change (Binary64.float_of_int 1) with 1%float. split.
  - intros Heq. by rewrite (eqb_eqb p1 p2 best Heq).
  - intros Hp.
    destruct (PrimFloat.eqb p1 best) eqn:E1,
             (PrimFloat.eqb p2 best) eqn:E2.
    + apply leb_refl. by apply leb_key in Hbw as (_ & ?%eqb_refl_nan & _).
    + done.
    + exfalso. apply not_true_iff_false in E1. apply E1, leb_antisym.
      * exact (Hupper _ _ _ Ha1 Hp1).
      * apply leb_eqb in E2 as [_ E2]. by eapply leb_trans.
    + apply leb_refl. by apply leb_key in Hb as (_ & ?%eqb_refl_nan & _).
Qed.
End Binary64Policy.

(** ** Without rounding

    What the all-tied allocation would be if the operations did not round:
    the method run on the rationals. *)

Section ExactTies.
#[local] Existing Instance Exact.arith.
Variable self : EpsilonGreedy Q.

Lemma all_tied_exact :
  arms_sampled (_historical_info self) ≠ ∅ →
  all_tied (num := Q) (arms_sampled (_historical_info self)) = true →
  ∃ m : gmap string Q,
    allocate_arms self = inr m
    ∧ ∀ name v, m !! name = Some v →
        (v == 1 / inject_Z (Z.of_nat (num_arms (_historical_info self))))%Q.
Proof.
  intros Hne Hall. pose proof (all_tied_lookup _ Hall) as Htied.
  destruct (payoff_name_list_total (arms_sampled (_historical_info self)))
    as [l Hl].
  { intros name a Ha. destruct (Htied _ _ _ _ Ha Ha) as (p & _ & Hp & _).
    by exists p. }
  pose proof (sort_reverse_perm l) as Hperm.
  destruct (sort_reverse l) as [|[best name] rest] eqn:Hsorted.
  { apply Permutation_nil_l in Hperm. subst l.
    by apply payoff_name_list_nil in Hl. }
  assert ((best, name) ∈ l) as Hin by (rewrite <- Hperm; by left).
  apply (elem_of_payoff_name_list _ _ _ _ Hl) in Hin as (a0 & Ha0 & Hbest).
  assert (∀ k a p, arms_sampled (_historical_info self) !! k = Some a →
            avg_payoff a = inr p → feqb p best = true) as Hwin.
  { intros k a p Ha Hp.
    destruct (Htied _ _ _ _ Ha Ha0) as (p1 & p2 & Hp1 & Hp2 & Heq).
    congruence. }
  destruct (allocate_arms_sorted self l best name rest Hl Hsorted)
    as (m & Hm & Hdom & _ & Hlookup); [by eapply Hwin|].
  exists m. split; [done|]. intros k v Hv.
  assert (is_Some (arms_sampled (_historical_info self) !! k)) as [a Ha].
  { apply elem_of_dom. rewrite <- Hdom. apply elem_of_dom. by eexists. }
  destruct (Htied _ _ _ _ Ha Ha) as (p & _ & Hp & _).
  rewrite (Hlookup k a p Ha Hp) in Hv. injection Hv as <-.
  unfold allocation. rewrite (Hwin k a p Ha Hp).
  assert (arms_with_payoff best (arms_sampled (_historical_info self))
          = map_to_list (arms_sampled (_historical_info self))) as ->.
  { apply forallb_filter_id, forallb_forall.
    intros [k' a'] Hin%list_elem_of_In%elem_of_map_to_list.
    destruct (Htied _ _ _ _ Hin Hin) as (p' & _ & Hp' & _).
    unfold has_payoff. cbn [snd]. rewrite Hp'. by eapply Hwin. }
  rewrite length_map_to_list. fold (num_arms (_historical_info self)).
  cbn [fadd fsub fdiv of_int Exact.arith].
  pose proof (size_pos _ Hne) as Hsize.
  fold (num_arms (_historical_info self)) in Hsize.
  assert (0 < inject_Z (Z.of_nat (num_arms (_historical_info self))))%Q.
  { change 0%Q with (inject_Z 0). rewrite <- Zlt_Qlt. lia. }
  change (inject_Z 1) with 1%Q. field. lra.
Qed.
End ExactTies.
(** ** The documented example, and the examples of the statements above *)

Ltac concrete_nonempty :=
  let E := fresh "E" in
  intros E; apply (f_equal size) in E; vm_compute in E; discriminate E.

(** C7: on arm1 and arm2 with win=5, loss=0, total=10, arm3 with total=0 and
    epsilon = 0.12, the binary64 computation returns a mapping of exactly the
    three arms, whose values are within 1e-9 of 0.48, 0.48 and 0.04 (they are
    the binary64 numbers nearest to them). *)
Theorem tie_splitting_example :
  ∃ (m : gmap string float) (v1 v2 v3 : float),
    allocate_arms tie_example = inr m
    ∧ map_to_list m = [("arm3", v3); ("arm1", v1); ("arm2", v2)]
    ∧ m !! "arm1" = Some v1 ∧ m !! "arm2" = Some v2 ∧ m !! "arm3" = Some v3
    ∧ within 1e-9 v1 0.48 = true
    ∧ within 1e-9 v2 0.48 = true
    ∧ within 1e-9 v3 0.04 = true
    ∧ v1 = 0.48%float ∧ v2 = 0.48%float ∧ v3 = 0.04%float.
Proof.
  eexists _, _, _, _. split; [by vm_compute|].
  do 9 (split; [by vm_compute|]). by vm_compute.
Qed.

(** The same example in exact arithmetic: 12/25, 12/25 and 1/25. *)
Lemma tie_splitting_exact :
  ∃ m : gmap string Q,
    allocate_arms (arith := Exact.arith) exact_example = inr m
    ∧ ∃ v1 v2 v3,
        m !! "arm1" = Some v1 ∧ m !! "arm2" = Some v2 ∧ m !! "arm3" = Some v3
        ∧ (v1 == 0.48)%Q ∧ (v2 == 0.48)%Q ∧ (v3 == 0.04)%Q.
Proof.
  eexists. split; [by vm_compute|]. eexists _, _, _.
  do 5 (split; [by vm_compute|]). by vm_compute.
Qed.


(** Counterexample to C1 as stated: the average payoff of arm1,
    94911150/94911151, is below that of arm2, 94911151/94911152, so arm1
    does not achieve the maximum; in float64 both quotients round to the same
    number, both arms are taken as winners, and arm1 gets
    0.1/2 + 0.9/2 = 0.5 instead of epsilon / num_arms = 0.05. *)
Lemma near_tie_both_win :
  arms_sampled near_tie_arms ≠ ∅
  ∧ in_range (num := float) (arms_sampled near_tie_arms) = true
  ∧ arms_sampled near_tie_arms !! "arm1" = Some (arm 94911150 0 94911151)
  ∧ arms_sampled near_tie_arms !! "arm2" = Some (arm 94911151 0 94911152)
  ∧ (exact_avg_payoff (arm 94911150 0 94911151)
     < exact_avg_payoff (arm 94911151 0 94911152))%Q
  ∧ ∃ (m : gmap string float) (v : float),
      allocate_arms near_tie_example = inr m
      ∧ m !! "arm1" = Some v
      ∧ m !! "arm2" = Some v
      ∧ v = 0.5%float
      ∧ PrimFloat.eqb v (_epsilon near_tie_example
                         / Binary64.float_of_int
                             (Z.of_nat (num_arms near_tie_arms))) = false.
Proof.
  split; [concrete_nonempty|]. do 4 (split; [by vm_compute|]).
  eexists _, _. split; [by vm_compute|]. do 3 (split; [by vm_compute|]).
  by vm_compute.
Qed.


(** Counterexample to C10 as stated: the average payoff of arm1,
    (2^53 + 1) / (2^53 + 2), is above that of arm2, 2^53 / (2^53 + 1); in
    float64 the counts of line 72 round, the payoff of arm2 becomes 1.0 and
    is the best, and arm1 gets the smaller allocation. *)
Lemma large_counts_order_reversed :
  arms_sampled large_count_arms ≠ ∅
  ∧ in_range (num := float) (arms_sampled large_count_arms) = true
  ∧ PrimFloat.leb 0 (_epsilon large_count_example) = true
  ∧ PrimFloat.ltb (_epsilon large_count_example) 1 = true
  ∧ arms_sampled large_count_arms !! "arm1"
    = Some (arm (2 ^ 53 + 1) 0 (2 ^ 53 + 2))
  ∧ arms_sampled large_count_arms !! "arm2"
    = Some (arm (2 ^ 53) 0 (2 ^ 53 + 1))
  ∧ (exact_avg_payoff (arm (2 ^ 53) 0 (2 ^ 53 + 1))
     < exact_avg_payoff (arm (2 ^ 53 + 1) 0 (2 ^ 53 + 2)))%Q
  ∧ ∃ (m : gmap string float) (v1 v2 : float),
      allocate_arms large_count_example = inr m
      ∧ m !! "arm1" = Some v1
      ∧ m !! "arm2" = Some v2
      ∧ PrimFloat.ltb v1 v2 = true
      ∧ PrimFloat.leb v2 v1 = false.
Proof.
  split; [concrete_nonempty|]. do 6 (split; [by vm_compute|]).
  eexists _, _, _. split; [by vm_compute|]. do 3 (split; [by vm_compute|]).
  by vm_compute.
Qed.

(** *** Examples of the statements above *)

Lemma allocate_arms_closed_form_witness :
  ∃ (m : gmap string float) (best : float),
    allocate_arms tie_example = inr m
    ∧ PrimFloat.leb 0.5 best = true
    ∧ ∃ p : float,
        avg_payoff (arm 0 0 0) = inr p
        ∧ m !! "arm3"
          = Some (if PrimFloat.eqb p best
                  then (0.12 / Binary64.float_of_int (Z.of_nat (num_arms three_arms))
                        + (1 - 0.12)
                          / Binary64.float_of_int
                              (Z.of_nat
                                 (length (arms_with_payoff best
                                            (arms_sampled three_arms)))))
                  else 0.12 / Binary64.float_of_int
                                (Z.of_nat (num_arms three_arms)))%float.
Proof.
  destruct (allocate_arms_closed_form tie_example)
    as (m & best & Hm & _ & Hupper & Hall);
    [concrete_nonempty|by vm_compute|].
  exists m, best. split; [exact Hm|]. split.
  - apply (Hupper "arm1" (arm 5 0 10)); reflexivity.
  - destruct (Hall "arm3" (arm 0 0 0)) as (p & Hp & _ & Hv); [reflexivity|].
    exists p. split; [exact Hp|exact Hv].
Defined.

Lemma allocation_keys_witness :
  dom tie_allocation = dom (arms_sampled three_arms)
  ∧ NoDup (map_to_list tie_allocation).*1.
Proof.
  destruct (allocation_keys tie_example tie_allocation)
    as (Hdom & Hnd & _); [by vm_compute|].
  split; [exact Hdom|exact Hnd].
Defined.

Lemma allocations_nonneg_witness :
  PrimFloat.leb 0 (_epsilon tie_example) = true
  ∧ PrimFloat.ltb (_epsilon tie_example) 1 = true
  ∧ allocate_arms tie_example = inr tie_allocation
  ∧ tie_allocation !! "arm3" = Some 0.04%float
  ∧ PrimFloat.leb 0 0.04 = true.
Proof.
  split; [reflexivity|]. split; [reflexivity|]. split; [by vm_compute|].
  split; [reflexivity|].
  apply (allocations_nonneg tie_example tie_allocation
           ltac:(reflexivity) ltac:(reflexivity) ltac:(by vm_compute)
           "arm3" 0.04%float).
  reflexivity.
Defined.


Lemma allocation_monotone_witness :
  ∃ v1 v3 : float,
    tie_allocation !! "arm1" = Some v1 ∧ tie_allocation !! "arm3" = Some v3
    ∧ PrimFloat.leb v3 v1 = true.
Proof.
  destruct (allocation_monotone tie_example tie_allocation
              ltac:(reflexivity) ltac:(reflexivity) ltac:(by vm_compute)
              "arm1" (arm 5 0 10) 0.5%float "arm3" (arm 0 0 0) 0%float)
    as (v1 & v3 & H1 & H3 & _ & Hle);
    [reflexivity|reflexivity|reflexivity|reflexivity|].
  exists v1, v3. split; [exact H1|]. split; [exact H3|].
  apply Hle. reflexivity.
Defined.

Lemma empty_input_error_witness :
  allocate_arms no_arms_example = inl EmptyInputError
  ∧ ∀ m, allocate_arms no_arms_example ≠ inr m.
Proof.
  destruct (empty_input_error no_arms_example) as [Herr Hnone].
  split; [apply Herr; reflexivity|]. by destruct Hnone.
Defined.


Lemma allocate_arms_leaves_store_witness :
  (allocate_arms_st 1%positive example_store).2 !! 1%positive
  = Some (EpsilonGreedyObject 2%positive 0.12%float)
  ∧ (allocate_arms_st 1%positive example_store).2 !! 2%positive
    = Some (HistoricalDataObject (arms_sampled three_arms))
  ∧ ∃ d, (allocate_arms_st 1%positive example_store).1 = inr d
         ∧ example_store !! d = None.
Proof.
  destruct (allocate_arms_leaves_store example_store 1%positive)
    as [Hkeep Hfresh].
  split; [apply Hkeep; reflexivity|]. split; [apply Hkeep; reflexivity|].
  exists 4%positive.
  assert ((allocate_arms_st 1%positive example_store).1 = inr 4%positive)
    as Hrun by (by vm_compute).
  split; [exact Hrun|]. by destruct (Hfresh _ Hrun).
Defined.

(** ** Examples of the further statements *)

Lemma nonempty_input_outcome_witness :
  (∃ m : gmap string float, allocate_arms tie_example = inr m)
  ∨ (allocate_arms tie_example
     = inl (OverflowError "long int too large to convert to float")
     ∧ in_range (num := float) (arms_sampled three_arms) = false)
  ∨ (allocate_arms tie_example
     = inl (ValueError "need more than 0 values to unpack")
     ∧ ∃ (l : list (float * string)) best name rest,
         payoff_name_list (arms_sampled three_arms) = inr l
         ∧ sort_reverse l = (best, name) :: rest
         ∧ feqb best best = false).
Proof. apply (nonempty_input_outcome tie_example). concrete_nonempty. Defined.

Lemma returned_mapping_values_witness :
  ∃ ws : list string,
    winning_arm_names (num := float) (arms_sampled three_arms) = inr ws
    ∧ NoDup ws ∧ 1 ≤ length ws.
Proof.
  destruct (returned_mapping_values tie_example tie_allocation)
    as (ws & Hws & Hnd & Hlen & _); [by vm_compute|].
  exists ws. split; [exact Hws|]. split; [exact Hnd|exact Hlen].
Defined.

Lemma allocate_arms_twice_witness :
  ∃ d1 d2 : loc,
    (allocate_arms_st 1%positive example_store).1 = inr d1
    ∧ (allocate_arms_st 1%positive
         (allocate_arms_st 1%positive example_store).2).1 = inr d2
    ∧ d1 ≠ d2.
Proof.
  destruct (allocate_arms_twice example_store 1%positive 2%positive
              0.12%float (arms_sampled three_arms) tie_allocation)
    as (d1 & d2 & H1 & H2 & Hne & _);
    [reflexivity|reflexivity|by vm_compute|].
  exists d1, d2. split; [exact H1|]. split; [exact H2|exact Hne].
Defined.

